(** * Discord webhook manager: the scheduled dispatch engine

    A shallow embedding of the time- and failure-driven core of the
    repository:

    - [RateLimiter]    the sliding-window limiter (class [RateLimiter]);
    - [JSDate]         the part of the ECMAScript [Date] arithmetic that
                       [calculateNextSchedule] relies on;
    - [Dash]           the polling scheduler of the dashboard
                       ([WebhookManager.startScheduleChecker],
                       [executeSchedule], [calculateNextSchedule]);
    - [Dispatcher]     [WebhookManagerPro.sendDiscordWebhook];
    - [Analytics]      [AnalyticsService.track] and [flush];
    - [Stats]          the rolling statistics;
    - [Pro]            [WebhookManagerPro.handleScheduledTask] and
                       [testWebhook], which feed them.

    Times are ECMAScript time values: integers, milliseconds since the
    epoch.  The definitions come first, the facts about them after. *)

From Stdlib Require Import ZArith QArith Qround Lia.
From stdpp Require Import base gmap strings list pretty.

Open Scope Z_scope.

(** The double-quote character, for the messages that quote a name. *)
Definition dquote : string := String (Ascii.ascii_of_nat 34) EmptyString.

(* ===================================================================== *)
(** ** The sliding-window rate limiter *)
(* ===================================================================== *)

Module RateLimiter.

(** [private requests: Map<string, number[]>] *)
Abbreviation store := (gmap string (list Z)).

(** [requests.filter(time => time > windowStart)] *)
Definition recent (windowStart : Z) (requests : list Z) : list Z :=
  filter (λ time, windowStart < time) requests.

(** [checkLimit(identifier, limit, windowMs)], with the value of
    [Date.now()] as the argument [now].  The array that is pushed to is
    the one that was just stored in the map, so the pushed timestamp is
    part of the stored list. *)
Definition checkLimit (identifier : string) (limit windowMs : Z)
    (now : Z) (s : store) : bool * store :=
  let windowStart := now - windowMs in
  let s1 := if decide (is_Some (s !! identifier)) then s
            else <[identifier := []]> s in
  let requests := default [] (s1 !! identifier) in
  let recentRequests := recent windowStart requests in
  let s2 := <[identifier := recentRequests]> s1 in
  if Z.of_nat (length recentRequests) <? limit
  then (true, <[identifier := recentRequests ++ [now]]> s2)
  else (false, s2).

(** [getRemainingRequests(identifier, limit)]: reads only. *)
Definition getRemainingRequests (identifier : string) (limit : Z)
    (now : Z) (s : store) : Z :=
  let windowStart := now - 60000 in
  match s !! identifier with
  | None => limit
  | Some requests =>
      Z.max 0 (limit - Z.of_nat (length (recent windowStart requests)))
  end.

Definition default_limit : Z := 60.
Definition default_windowMs : Z := 60000.

(** A sequence of [checkLimit] calls with a fixed limit and window, each
    call given by its identifier and the clock reading at the call. *)
Fixpoint run (limit windowMs : Z) (calls : list (string * Z)) (s : store)
    : list bool * store :=
  match calls with
  | [] => ([], s)
  | (identifier, now) :: rest =>
      let '(ok, s') := checkLimit identifier limit windowMs now s in
      let '(oks, s'') := run limit windowMs rest s' in
      (ok :: oks, s'')
  end.

(** The calls of one identifier at the given clock readings. *)
Definition calls_of (identifier : string) (times : list Z)
    : list (string * Z) :=
  (λ now, (identifier, now)) <$> times.

(** Of a sequence of calls, the clock readings of those made for one
    identifier, and the results of those. *)
Fixpoint calls_for (identifier : string) (calls : list (string * Z))
    : list Z :=
  match calls with
  | [] => []
  | (identifier', now) :: rest =>
      if decide (identifier' = identifier)
      then now :: calls_for identifier rest
      else calls_for identifier rest
  end.

Fixpoint results_for (identifier : string) (calls : list (string * Z))
    (oks : list bool) : list bool :=
  match calls, oks with
  | (identifier', _) :: rest, ok :: oks' =>
      if decide (identifier' = identifier)
      then ok :: results_for identifier rest oks'
      else results_for identifier rest oks'
  | _, _ => []
  end.

(** The timestamps stored for an identifier ([[]] when it has no entry). *)
Definition stored (identifier : string) (s : store) : list Z :=
  default [] (s !! identifier).

(** The clock readings of the calls that were allowed. *)
Fixpoint allowed_times (times : list Z) (oks : list bool) : list Z :=
  match times, oks with
  | now :: times', ok :: oks' =>
      if ok then now :: allowed_times times' oks'
      else allowed_times times' oks'
  | _, _ => []
  end.

(** The timestamps of [l] in the window [(t - windowMs, t]]. *)
Definition in_window (windowMs t : Z) (l : list Z) : list Z :=
  filter (λ x, t - windowMs < x ∧ x ≤ t) l.

(** No stored list has outgrown the limit. *)
Definition bounded (L : Z) (s : store) : Prop :=
  ∀ id, stored id s = [] ∨ Z.of_nat (length (stored id s)) ≤ L.

(** The clock never runs backwards over a sequence of readings. *)
Fixpoint monotone (times : list Z) : Prop :=
  match times with
  | [] => True
  | t :: rest => Forall (λ u, t ≤ u) rest ∧ monotone rest
  end.

End RateLimiter.

(* ===================================================================== *)
(** ** ECMAScript date arithmetic *)
(* ===================================================================== *)

(** The abstract operations of the language standard behind [getDate],
    [setDate], [getMonth] and [setMonth].  A time value that is not a
    number (an invalid date) is [None].  The local time zone is the
    standard's [LocalTZA(t, isUTC)]: the offset from UTC in milliseconds
    that the host's zone has at the instant [t] ([isUTC] true), or that it
    gives to the local time [t] ([isUTC] false); a zone that changes its
    clocks has an offset that depends on [t]. *)
Module JSDate.

Definition msPerDay : Z := 86400000.
Definition maxTime : Z := 8640000000000000.

Definition Day (t : Z) : Z := t / msPerDay.
Definition TimeWithinDay (t : Z) : Z := t mod msPerDay.

Definition isLeapYear (y : Z) : bool :=
  if negb (y mod 4 =? 0) then false
  else if negb (y mod 100 =? 0) then true
  else if negb (y mod 400 =? 0) then false
  else true.


Definition DayFromYear (y : Z) : Z :=
  365 * (y - 1970) + (y - 1969) / 4 - (y - 1901) / 100 + (y - 1601) / 400.

Definition TimeFromYear (y : Z) : Z := msPerDay * DayFromYear y.

(** The largest [y] with [TimeFromYear y <= t]: an estimate from the mean
    length of a year, off by at most one, then corrected. *)
Definition YearFromTime (t : Z) : Z :=
  let d := Day t in
  let y := 1970 + (d * 400) / 146097 in
  if d <? DayFromYear y then y - 1
  else if DayFromYear (y + 1) <=? d then y + 1
  else y.

Definition InLeapYear (t : Z) : Z :=
  if isLeapYear (YearFromTime t) then 1 else 0.

Definition DayWithinYear (t : Z) : Z := Day t - DayFromYear (YearFromTime t).

(** The day of the year on which month [m] (0 to 11) starts; [leap] is 1
    in a leap year and 0 otherwise.  Month 12 stands for the end of the
    year. *)
Definition monthStart (m leap : Z) : Z :=
  match m with
  | 0 => 0
  | 1 => 31
  | 2 => 59 + leap
  | 3 => 90 + leap
  | 4 => 120 + leap
  | 5 => 151 + leap
  | 6 => 181 + leap
  | 7 => 212 + leap
  | 8 => 243 + leap
  | 9 => 273 + leap
  | 10 => 304 + leap
  | 11 => 334 + leap
  | _ => 365 + leap
  end.

Definition MonthFromTime (t : Z) : Z :=
  let d := DayWithinYear t in
  let leap := InLeapYear t in
  if d <? monthStart 1 leap then 0
  else if d <? monthStart 2 leap then 1
  else if d <? monthStart 3 leap then 2
  else if d <? monthStart 4 leap then 3
  else if d <? monthStart 5 leap then 4
  else if d <? monthStart 6 leap then 5
  else if d <? monthStart 7 leap then 6
  else if d <? monthStart 8 leap then 7
  else if d <? monthStart 9 leap then 8
  else if d <? monthStart 10 leap then 9
  else if d <? monthStart 11 leap then 10
  else 11.

Definition DateFromTime (t : Z) : Z :=
  DayWithinYear t - monthStart (MonthFromTime t) (InLeapYear t) + 1.


(** [MakeDay(year, month, date)]: the day number of the [date]-th day
    counted from the first of the month, months beyond the year carried
    into the year. *)
Definition MakeDay (year month date : Z) : Z :=
  let ym := year + month / 12 in
  let mn := month mod 12 in
  DayFromYear ym + monthStart mn (if isLeapYear ym then 1 else 0) + date - 1.

Definition MakeDate (day time : Z) : Z := day * msPerDay + time.

(** [TimeClip]: a time beyond the range of dates is not a number. *)
Definition TimeClip (t : Z) : option Z :=
  if Z.abs t <=? maxTime then Some t else None.

(** A time zone: [LocalTZA(t, isUTC)]. *)
Definition zone : Type := Z → bool → Z.

(** A zone that never changes its clocks, and UTC among them. *)
Definition fixed_zone (offset : Z) : zone := λ _ _, offset.
Definition utc : zone := fixed_zone 0.


Section LocalZone.
Variable LocalTZA : zone.

Definition LocalTime (t : Z) : Z := t + LocalTZA t true.
Definition UTC (t : Z) : Z := t - LocalTZA t false.

(** [Date.prototype.getDate] and [getMonth] *)
Definition getDate (tv : option Z) : option Z :=
  t ← tv; Some (DateFromTime (LocalTime t)).

Definition getMonth (tv : option Z) : option Z :=
  t ← tv; Some (MonthFromTime (LocalTime t)).

(** [Date.prototype.setDate(date)]: the new time value. *)
Definition setDate (tv : option Z) (date : option Z) : option Z :=
  t ← tv; dt ← date;
  let t' := LocalTime t in
  let newDate :=
    MakeDate (MakeDay (YearFromTime t') (MonthFromTime t') dt)
             (TimeWithinDay t') in
  TimeClip (UTC newDate).

(** [Date.prototype.setMonth(month)]: the new time value. *)
Definition setMonth (tv : option Z) (month : option Z) : option Z :=
  t ← tv; m ← month;
  let t' := LocalTime t in
  let newDate :=
    MakeDate (MakeDay (YearFromTime t') m (DateFromTime t'))
             (TimeWithinDay t') in
  TimeClip (UTC newDate).

End LocalZone.

End JSDate.

(* ===================================================================== *)
(** ** The dashboard's polling scheduler *)
(* ===================================================================== *)

(** [WebhookManager] of the dashboard keeps its webhooks, schedules and
    activities in arrays of objects.  A schedule object is shared between
    the [schedules] array and every [executeSchedule] call that is waiting
    for its [fetch]: the objects live in a heap and the array holds their
    addresses.  [executeSchedule] is an [async] function: it runs up to its
    [await fetch(...)] when it is called, and its remainder runs when the
    request settles, with whatever happened in between visible to it. *)
Module Dash.

Record webhook := Webhook {
  w_id : string;
  w_name : string;
  w_url : string;
  w_active : bool
}.

(** [scheduleTime] is a date string; it is kept as the time value that
    [new Date(scheduleTime)] gives, [None] for a string that does not
    parse. *)
Record schedule := Schedule {
  s_id : string;
  s_webhookId : string;
  s_message : string;
  s_scheduleTime : option Z;
  s_repeat : string;
  s_active : bool
}.

Record activity := Activity {
  a_type : string;
  a_message : string;
  a_timestamp : Z
}.

(** A [fetch] call: the address and the [content] of the JSON body. *)
Record request := Request {
  rq_url : string;
  rq_content : string
}.

Definition loc := nat.

(** An [executeSchedule] call suspended at its [await]: the schedule
    object and the webhook object it holds. *)
Record pending := Pending {
  p_schedule : loc;
  p_webhook : webhook
}.

Record state := State {
  webhooks : list webhook;
  schedules : list loc;
  heap : gmap loc schedule;
  activities : list activity;
  inflight : list pending;
  requests : list request
}.

(** How a [fetch] settles: rejected (no response), or resolved with a
    response of some status. *)
Inductive fetch_result :=
  | Rejected
  | Responded (status : Z).

(** [response.ok] *)
Definition response_ok (status : Z) : bool :=
  (200 <=? status) && (status <=? 299).

Definition set_schedules (v : list loc) (st : state) : state :=
  State (webhooks st) v (heap st) (activities st) (inflight st) (requests st).
Definition set_webhooks (v : list webhook) (st : state) : state :=
  State v (schedules st) (heap st) (activities st) (inflight st) (requests st).
Definition set_heap (v : gmap loc schedule) (st : state) : state :=
  State (webhooks st) (schedules st) v (activities st) (inflight st)
        (requests st).
Definition set_activities (v : list activity) (st : state) : state :=
  State (webhooks st) (schedules st) (heap st) v (inflight st) (requests st).
Definition set_inflight (v : list pending) (st : state) : state :=
  State (webhooks st) (schedules st) (heap st) (activities st) v
        (requests st).
Definition set_requests (v : list request) (st : state) : state :=
  State (webhooks st) (schedules st) (heap st) (activities st) (inflight st)
        v.

Definition set_scheduleTime (v : option Z) (s : schedule) : schedule :=
  Schedule (s_id s) (s_webhookId s) (s_message s) v (s_repeat s)
           (s_active s).
Definition set_active (v : bool) (s : schedule) : schedule :=
  Schedule (s_id s) (s_webhookId s) (s_message s) (s_scheduleTime s)
           (s_repeat s) v.

(** [addActivity(type, message)]: append, then keep the last 100. *)
Definition addActivity (type message : string) (now : Z) (st : state)
    : state :=
  let acts := activities st ++ [Activity type message now] in
  let acts' := if (100 <? length acts)%nat
               then drop (length acts - 100) acts else acts in
  set_activities acts' st.

(** [this.webhooks.find(w => w.id === id)] *)
Definition find_webhook (id : string) (ws : list webhook) : option webhook :=
  List.find (λ w, bool_decide (w_id w = id)) ws.

(** [this.schedules.filter(s => s.id !== id)] *)
Definition remove_schedules (id : string) (h : gmap loc schedule)
    (ls : list loc) : list loc :=
  List.filter
    (λ l, match h !! l with
          | Some s => negb (bool_decide (s_id s = id))
          | None => true
          end) ls.

(** The condition of the checker:
    [schedule.active && new Date(schedule.scheduleTime) <= now]. *)
Definition due (now : Z) (s : schedule) : bool :=
  s_active s &&
  match s_scheduleTime s with
  | Some t => t <=? now
  | None => false
  end.

(** [executeSchedule(schedule)] up to its [await]: without a webhook it
    returns at once; otherwise the request goes out and the call waits. *)
Definition executeSchedule_start (l : loc) (st : state) : state :=
  match heap st !! l with
  | None => st
  | Some s =>
      match find_webhook (s_webhookId s) (webhooks st) with
      | None => st
      | Some w =>
          set_requests (requests st ++ [Request (w_url w) (s_message s)])
            (set_inflight (inflight st ++ [Pending l w]) st)
      end
  end.

(** One round of the checker started by [startScheduleChecker], at clock
    reading [now]: every schedule of the array that is active and due is
    handed to [executeSchedule]. *)
Definition tick (now : Z) (st : state) : state :=
  foldl
    (λ acc l,
       match heap acc !! l with
       | Some s => if due now s then executeSchedule_start l acc else acc
       | None => acc
       end)
    st (schedules st).

(** The schedules a round hands to [executeSchedule]. *)
Definition dispatched (now : Z) (st : state) : list loc :=
  List.filter
    (λ l, match heap st !! l with
          | Some s => due now s
          | None => false
          end) (schedules st).

(** The calls a round leaves waiting, each with the request it sent: one
    for every schedule of [ls] that is active, due and has its webhook. *)
Definition starts_of (now : Z) (h : gmap loc schedule) (ws : list webhook)
    (ls : list loc) : list (pending * request) :=
  omap
    (λ l, s ← h !! l;
          if due now s then
            w ← find_webhook (s_webhookId s) ws;
            Some (Pending l w, Request (w_url w) (s_message s))
          else None)
    ls.

Definition starts (now : Z) (st : state) : list (pending * request) :=
  starts_of now (heap st) (webhooks st) (schedules st).

(** A request that did not bring a response with [response.ok]. *)
Definition failed (r : fetch_result) : bool :=
  match r with
  | Rejected => true
  | Responded status => negb (response_ok status)
  end.

Definition sent_message (w : webhook) : string :=
  "Scheduled message sent via " +:+ dquote +:+ w_name w +:+ dquote.
Definition failed_message (w : webhook) : string :=
  "Failed to send scheduled message via " +:+ dquote +:+ w_name w
  +:+ dquote.

(** [toggleSchedule(scheduleId)] *)
Definition toggleSchedule (id : string) (st : state) : state :=
  match List.find
          (λ l, match heap st !! l with
                | Some s => bool_decide (s_id s = id)
                | None => false
                end) (schedules st) with
  | Some l => set_heap (alter (λ s, set_active (negb (s_active s)) s) l
                              (heap st)) st
  | None => st
  end.

(** [deleteSchedule(scheduleId)], the confirmation given. *)
Definition deleteSchedule (id : string) (st : state) : state :=
  set_schedules (remove_schedules id (heap st) (schedules st)) st.

(** [deleteWebhook(webhookId)], the confirmation given.  For an unknown
    id the array is filtered and reading the name of the missing webhook
    then fails, so no activity is added. *)
Definition deleteWebhook (id : string) (now : Z) (st : state) : state :=
  let st' :=
    set_webhooks
      (List.filter (λ w, negb (bool_decide (w_id w = id))) (webhooks st))
      st in
  match find_webhook id (webhooks st) with
  | Some w =>
      addActivity "webhook_deleted"
        ("Deleted webhook " +:+ dquote +:+ w_name w +:+ dquote) now st'
  | None => st'
  end.

Section LocalZone.
Variable LocalTZA : JSDate.zone.

(** [calculateNextSchedule(schedule)]: [None] is [null], [Some d] a date
    object with time value [d]. *)
Definition calculateNextSchedule (s : schedule) : option (option Z) :=
  let current := s_scheduleTime s in
  if decide (s_repeat s = "daily") then
    Some (JSDate.setDate LocalTZA current
            ((λ d, d + 1) <$> JSDate.getDate LocalTZA current))
  else if decide (s_repeat s = "weekly") then
    Some (JSDate.setDate LocalTZA current
            ((λ d, d + 7) <$> JSDate.getDate LocalTZA current))
  else if decide (s_repeat s = "monthly") then
    Some (JSDate.setMonth LocalTZA current
            ((λ m, m + 1) <$> JSDate.getMonth LocalTZA current))
  else None.


(** The part of [executeSchedule] after a response with [response.ok]:
    the activity, then the repetition.  [toISOString] of an invalid date
    throws, which lands in the [catch] of [executeSchedule]. *)
Definition handle_repetition (p : pending) (now : Z) (st : state) : state :=
  let st1 := addActivity "message_sent" (sent_message (p_webhook p)) now st in
  match heap st1 !! p_schedule p with
  | None => st1
  | Some s =>
      if decide (s_repeat s ≠ "once") then
        match calculateNextSchedule s with
        | Some (Some t) =>
            set_heap (<[p_schedule p := set_scheduleTime (Some t) s]>
                        (heap st1)) st1
        | Some None =>
            addActivity "message_failed" (failed_message (p_webhook p))
              now st1
        | None => st1
        end
      else
        set_schedules (remove_schedules (s_id s) (heap st1) (schedules st1))
          st1
  end.

(** [executeSchedule] from its [await] on, once the request has settled. *)
Definition executeSchedule_resume (p : pending) (r : fetch_result)
    (now : Z) (st : state) : state :=
  match r with
  | Responded status =>
      if response_ok status then handle_repetition p now st
      else addActivity "message_failed" (failed_message (p_webhook p)) now st
  | Rejected =>
      addActivity "message_failed" (failed_message (p_webhook p)) now st
  end.

(** The [i]-th waiting call is resumed with the result of its request. *)
Definition settle (i : nat) (r : fetch_result) (now : Z) (st : state)
    : state :=
  match inflight st !! i with
  | None => st
  | Some p =>
      executeSchedule_resume p r now (set_inflight (delete i (inflight st)) st)
  end.

(** What can happen to the manager, one action at a time. *)
Inductive action :=
  | Tick (now : Z)
  | Settle (i : nat) (r : fetch_result) (now : Z)
  | ToggleSchedule (id : string)
  | DeleteSchedule (id : string)
  | DeleteWebhook (id : string) (now : Z).

Definition step (e : action) (st : state) : state :=
  match e with
  | Tick now => tick now st
  | Settle i r now => settle i r now st
  | ToggleSchedule id => toggleSchedule id st
  | DeleteSchedule id => deleteSchedule id st
  | DeleteWebhook id now => deleteWebhook id now st
  end.

Definition run_actions (es : list action) (st : state) : state :=
  foldl (λ acc e, step e acc) st es.

End LocalZone.

(** The number of failed sends the dashboard shows:
    [activities.filter(a => a.type === 'message_failed').length]. *)
Definition failedMessages (st : state) : nat :=
  length (List.filter (λ a, bool_decide (a_type a = "message_failed"))
            (activities st)).

(** The number of waiting calls that hold schedule object [l]. *)
Definition inflight_count (l : loc) (st : state) : nat :=
  length (List.filter (λ p, bool_decide (p_schedule p = l)) (inflight st)).

(** A state to try things on: one webhook and one daily schedule for it,
    due at the epoch. *)
Definition example_webhook : webhook :=
  Webhook "w1" "General" "https://discord.com/api/webhooks/1/abc" true.
Definition example_schedule (repeat : string) : schedule :=
  Schedule "s1" "w1" "hello" (Some 0) repeat true.
Definition example_state (repeat : string) : state :=
  State [example_webhook] [0%nat] {[ 0%nat := example_schedule repeat ]}
        [] [] [].


End Dash.

(* ===================================================================== *)
(** ** The dispatcher *)
(* ===================================================================== *)

(** [WebhookManagerPro.sendDiscordWebhook(url, data)]: one [fetch] under
    an [AbortController] that a timer aborts after ten seconds. *)
Module Dispatcher.

(** A thrown error value, by its [name] and [message]. *)
Record js_error := JsError {
  e_name : string;
  e_message : string
}.

(** How the request settles when nothing aborts it: a network failure
    (the [fetch] promise rejects with a [TypeError]), or a response, with
    its status, its status text and what [response.json()] gives for its
    body: the parsed value, or the error it rejects with when the body is
    not JSON. *)
Inductive fetch_settle :=
  | NetworkError (message : string)
  | Response (status : Z) (statusText : string) (json : js_error + string).

(** What the network does with the request: it settles it [delay]
    milliseconds after the call, or never. *)
Definition network := option (Z * fetch_settle).

Inductive fetch_outcome :=
  | Aborted
  | Settled (r : fetch_settle).

(** [setTimeout(() => controller.abort(), 10000)] *)
Definition timeoutMs : Z := 10000.

(** The request settles if it does so before the timer fires. *)
Definition fetch_with_signal (net : network) : fetch_outcome :=
  match net with
  | Some (delay, r) => if delay <? timeoutMs then Settled r else Aborted
  | None => Aborted
  end.

Definition response_is_ok (status : Z) : bool :=
  (200 <=? status) && (status <=? 299).

(** The [try] block: the value returned, or the error thrown in it. *)
Definition try_block (o : fetch_outcome) : js_error + string :=
  match o with
  | Aborted => inl (JsError "AbortError" "The operation was aborted.")
  | Settled (NetworkError message) => inl (JsError "TypeError" message)
  | Settled (Response status statusText json) =>
      if response_is_ok status then json
      else inl (JsError "Error"
                  ("HTTP " +:+ pretty status +:+ ": " +:+ statusText))
  end.

(** The [catch] clause: what is thrown on. *)
Definition catch_clause (error : js_error) : js_error :=
  if decide (e_name error = "AbortError")
  then JsError "Error" "Request timeout - webhook took too long to respond"
  else error.

Definition sendDiscordWebhook (net : network) : js_error + string :=
  match try_block (fetch_with_signal net) with
  | inl error => inl (catch_clause error)
  | inr value => inr value
  end.

(** The three kinds of failure a caller can tell apart. *)
Definition is_timeout (e : js_error) : Prop :=
  e = JsError "Error" "Request timeout - webhook took too long to respond".
Definition is_http_error (status : Z) (e : js_error) : Prop :=
  ∃ statusText,
    e = JsError "Error" ("HTTP " +:+ pretty status +:+ ": " +:+ statusText).
Definition is_transport_error (e : js_error) : Prop :=
  e_name e = "TypeError".

End Dispatcher.

(* ===================================================================== *)
(** ** The analytics queue *)
(* ===================================================================== *)

(** [AnalyticsService].  [flush] is an [async] function: it swaps the
    queue out and reads the stored events when it is called, and writes
    them back, or puts the batch back, when it is resumed after its
    [await]; events can be tracked, and other flushes started, in
    between. *)
Module Analytics.

Record event := Event {
  ev_event : string;
  ev_properties : string;
  ev_timestamp : Z;
  ev_userAgent : string;
  ev_language : string
}.

(** A [flush] call suspended at its [await]: the batch it took and the
    stored events it read. *)
Record flush_call := FlushCall {
  f_events : list event;
  f_existing : list event
}.

Record service := Service {
  enabled : bool;
  queue : list event;
  waiting : list flush_call;
  localStore : list event
}.

(** The state a new service starts in: [enabled = true], [queue = []]. *)
Definition initial : service := Service true [] [] [].

Definition flushInterval : Z := 30000.

(** [l.slice(-n)]: the last [n] elements. *)
Definition slice_last {A} (n : nat) (l : list A) : list A :=
  drop (length l - n) l.

(** [flush()] up to its [await]. *)
Definition flush (st : service) : service :=
  match queue st with
  | [] => st
  | _ :: _ =>
      Service (enabled st) []
            (waiting st ++ [FlushCall (queue st) (localStore st)])
            (localStore st)
  end.

(** [['error', 'pageview', 'webhook_created'].includes(event)] *)
Definition is_priority (name : string) : bool :=
  bool_decide (name = "error") || bool_decide (name = "pageview")
  || bool_decide (name = "webhook_created").

(** [track(event, properties)], for the browser described by
    [userAgent] and [language]. *)
Definition track (userAgent language : string) (name properties : string)
    (now : Z) (st : service) : service :=
  if enabled st then
    let eventData := Event name properties now userAgent language in
    let st1 := Service (enabled st) (queue st ++ [eventData]) (waiting st)
                     (localStore st) in
    if is_priority name then flush st1 else st1
  else st.

(** The [i]-th suspended [flush] is resumed; [throws] tells whether
    writing the stored events fails.  On failure the [catch] clause runs
    [this.queue.unshift(...events)]. *)
Definition flush_resume (i : nat) (throws : bool) (st : service)
    : service :=
  match waiting st !! i with
  | None => st
  | Some f =>
      let rest := delete i (waiting st) in
      if throws then
        Service (enabled st) (f_events f ++ queue st) rest (localStore st)
      else
        Service (enabled st) (queue st) rest
              (slice_last 1000 (f_existing f ++ f_events f))
  end.

(** [setConsent(granted)] *)
Definition setConsent (granted : bool) (st : service) : service :=
  Service granted (queue st) (waiting st) (localStore st).

(** The events that a [track] call leaves waiting for delivery next: the
    batch of the flush it started when the event has priority, the queue
    otherwise. *)
Definition next_batch (name : string) (st : service) : list event :=
  if is_priority name then default [] (f_events <$> last (waiting st))
  else queue st.

End Analytics.

(* ===================================================================== *)
(** ** The rolling statistics *)
(* ===================================================================== *)

Module Stats.

(** The object [testWebhook], [sendMessage] and [handleScheduledTask]
    hand to [updateWebhookStats] and [updateScheduleStats]:
    [{ success, responseTime }]. *)
Record outcome := Outcome {
  success : bool;
  responseTime : Q
}.

Record stats := MkStats {
  totalCount : Z;
  successCount : Z;
  failureCount : Z;
  lastExecutedAt : option Z;
  averageResponseTimeMs : Q
}.

Definition empty : stats := MkStats 0 0 0 None 0%Q.

(** Modelled from the spec: [updateWebhookStats] and [updateScheduleStats]
    are called by the source but their bodies are not part of it; this is
    the [record] operation of the statistics aggregator as the
    specification words it: count the attempt, count it as a success or a
    failure, note the time, and move the average by
    [(latency - avg) / totalCount]. *)
Definition record (now : Z) (o : outcome) (s : stats) : stats :=
  let total := totalCount s + 1 in
  MkStats total
    (if success o then successCount s + 1 else successCount s)
    (if success o then failureCount s else failureCount s + 1)
    (Some now)
    (averageResponseTimeMs s
     + (responseTime o - averageResponseTimeMs s) / inject_Z total)%Q.

(** Recording a sequence of outcomes, each at the given clock reading. *)
Definition record_all (os : list (Z * outcome)) (s : stats) : stats :=
  foldl (λ acc '(now, o), record now o acc) s os.

(** The averages after each record of a sequence. *)
Fixpoint averages (os : list (Z * outcome)) (s : stats) : list Q :=
  match os with
  | [] => []
  | (now, o) :: rest =>
      let s' := record now o s in
      averageResponseTimeMs s' :: averages rest s'
  end.

(** The sum of the latencies of a sequence of outcomes. *)
Definition total_latency (os : list (Z * outcome)) : Q :=
  foldr (λ '(_, o) acc, (responseTime o + acc)%Q) 0%Q os.

End Stats.

(* ===================================================================== *)
(** ** The callers of the dispatcher *)
(* ===================================================================== *)

(** [WebhookManagerPro.handleScheduledTask] and [testWebhook], as the
    sequence of things they do to the rest of the application: the
    request they send, the statistics updates they ask for, what they
    log, emit and show. *)
Module Pro.

Record pro_webhook := ProWebhook {
  pw_id : string;
  pw_name : string;
  pw_url : string;
  pw_status : string
}.

Record pro_schedule := ProSchedule {
  ps_id : string;
  ps_name : string;
  ps_webhookId : string;
  ps_messageData : string
}.

Inductive effect :=
  | Fetch (url data : string)
  | UpdateScheduleStats (id : string) (o : Stats.outcome)
  | UpdateWebhookStats (id : string) (o : Stats.outcome)
  | LogActivity (type message : string)
  | Emit (name detail : string)
  | Notify (message type : string).

(** [this.state.webhooks.find(w => w.id === id)] *)
Definition find_pro_webhook (id : string) (ws : list pro_webhook)
    : option pro_webhook :=
  List.find (λ w, bool_decide (pw_id w = id)) ws.

(** [Math.round(x)] *)
Definition round (x : Q) : Z := Qfloor (Qplus x (Qmake 1 2)).

(** The [catch] clause of [handleScheduledTask]. *)
Definition scheduled_failure (sch : pro_schedule) (message : string)
    : list effect :=
  [UpdateScheduleStats (ps_id sch) (Stats.Outcome false 0%Q);
   Emit "schedule:failed" message].

(** [handleScheduledTask(schedule)], with what the network does with the
    request and the time measured around the call. *)
Definition handleScheduledTask (ws : list pro_webhook) (sch : pro_schedule)
    (net : Dispatcher.network) (responseTime : Q) : list effect :=
  match find_pro_webhook (ps_webhookId sch) ws with
  | None => scheduled_failure sch "Webhook not found"
  | Some w =>
      if decide (pw_status w ≠ "active")
      then scheduled_failure sch "Webhook is not active"
      else
        Fetch (pw_url w) (ps_messageData sch) ::
        match Dispatcher.sendDiscordWebhook net with
        | inr response =>
            [UpdateScheduleStats (ps_id sch) (Stats.Outcome true responseTime);
             UpdateWebhookStats (pw_id w) (Stats.Outcome true responseTime);
             LogActivity "schedule_executed"
               ("Executed schedule " +:+ dquote +:+ ps_name sch +:+ dquote);
             Emit "schedule:executed" response]
        | inl error => scheduled_failure sch (Dispatcher.e_message error)
        end
  end.

(** The [catch] clause of [testWebhook]; the error is thrown on. *)
Definition test_failure (webhookId : string) (error : Dispatcher.js_error)
    : list effect * option Dispatcher.js_error :=
  ((if decide (webhookId ≠ EmptyString)
    then [UpdateWebhookStats webhookId (Stats.Outcome false 0%Q)]
    else [])
   ++ [Notify ("Webhook test failed: " +:+ Dispatcher.e_message error)
              "error"],
   Some error).

(** [testWebhook(webhookId, messageData)], with the message to send made
    up already: the effects, and the error thrown if any. *)
Definition testWebhook (ws : list pro_webhook) (isOnline : bool)
    (webhookId testMessage : string) (net : Dispatcher.network)
    (responseTime : Q) : list effect * option Dispatcher.js_error :=
  match find_pro_webhook webhookId ws with
  | None =>
      test_failure webhookId (Dispatcher.JsError "Error" "Webhook not found")
  | Some w =>
      if negb isOnline then
        test_failure webhookId
          (Dispatcher.JsError "Error" "Cannot test webhook while offline")
      else
        match Dispatcher.sendDiscordWebhook net with
        | inr response =>
            ([Fetch (pw_url w) testMessage;
              UpdateWebhookStats webhookId (Stats.Outcome true responseTime);
              LogActivity "webhook_tested"
                ("Tested webhook " +:+ dquote +:+ pw_name w +:+ dquote
                 +:+ " - " +:+ pretty (round responseTime) +:+ "ms");
              Notify ("Webhook test successful! ("
                      +:+ pretty (round responseTime) +:+ "ms)") "success"],
             None)
        | inl error =>
            let '(effects, thrown) := test_failure webhookId error in
            (Fetch (pw_url w) testMessage :: effects, thrown)
        end
  end.

(** The outcomes a list of effects hands to the statistics. *)
Definition outcomes (effects : list effect) : list Stats.outcome :=
  omap (λ e, match e with
             | UpdateScheduleStats _ o | UpdateWebhookStats _ o => Some o
             | _ => None
             end) effects.

(** The requests among a list of effects. *)
Definition is_fetch (e : effect) : bool :=
  match e with Fetch _ _ => true | _ => false end.

End Pro.

(* ===================================================================== *)
(** ** The dashboard's utilities and statistics *)
(* ===================================================================== *)

(** The helpers of [WebhookManager] that the views use: [escapeHtml],
    [formatTime], [isValidWebhookUrl], the numbers of [updateStats] and
    [updateAnalyticsStats], and the list of [loadRecentActivity].  Strings
    are sequences of bytes; the characters these functions look for are
    ASCII, so it makes no difference to them how other characters are
    encoded. *)
Module DashUtil.

(** [s.replace(/c/g, rep)] for a single character [c]. *)
Fixpoint replace_all (c : Ascii.ascii) (rep : string) (s : string) : string :=
  match s with
  | EmptyString => EmptyString
  | String x rest =>
      if Ascii.eqb x c then rep +:+ replace_all c rep rest
      else String x (replace_all c rep rest)
  end.

Definition amp_char : Ascii.ascii := Ascii.ascii_of_nat 38.
Definition lt_char : Ascii.ascii := Ascii.ascii_of_nat 60.
Definition gt_char : Ascii.ascii := Ascii.ascii_of_nat 62.
Definition quot_char : Ascii.ascii := Ascii.ascii_of_nat 34.
Definition apos_char : Ascii.ascii := Ascii.ascii_of_nat 39.

(** [escapeHtml(unsafe)]: the five replacements, one after the other. *)
Definition escapeHtml (unsafe : string) : string :=
  replace_all apos_char "&#039;"
    (replace_all quot_char "&quot;"
       (replace_all gt_char "&gt;"
          (replace_all lt_char "&lt;"
             (replace_all amp_char "&amp;" unsafe)))).

(** What [escapeHtml] makes of one character. *)
Definition entity (x : Ascii.ascii) : string :=
  if Ascii.eqb x amp_char then "&amp;"
  else if Ascii.eqb x lt_char then "&lt;"
  else if Ascii.eqb x gt_char then "&gt;"
  else if Ascii.eqb x quot_char then "&quot;"
  else if Ascii.eqb x apos_char then "&#039;"
  else String x EmptyString.

Fixpoint entities (s : string) : string :=
  match s with
  | EmptyString => EmptyString
  | String x rest => entity x +:+ entities rest
  end.

(** The characters that open or close a tag or an attribute value. *)
Definition special (x : Ascii.ascii) : Prop :=
  x = lt_char ∨ x = gt_char ∨ x = quot_char ∨ x = apos_char.

(** The characters of a string. *)
Fixpoint chars (s : string) : list Ascii.ascii :=
  match s with
  | EmptyString => []
  | String x rest => x :: chars rest
  end.

(** [url.startsWith('https://discord.com/api/webhooks/')] *)
Definition webhook_prefix : string := "https://discord.com/api/webhooks/".

Definition isValidWebhookUrl (url : string) : bool :=
  String.prefix webhook_prefix url.

(** [formatTime(timestamp)] at clock reading [now].  [timestamp] is the
    time value of [new Date(timestamp)], [None] when the string does not
    parse; then every comparison fails and the date is printed.  What
    [toLocaleDateString] prints is up to the browser. *)
Section FormatTime.
Variable toLocaleDateString : option Z → string.

Definition formatTime (timestamp : option Z) (now : Z) : string :=
  match timestamp with
  | None => toLocaleDateString None
  | Some date =>
      let diffMs := now - date in
      let diffMins := diffMs / 60000 in
      let diffHours := diffMs / 3600000 in
      let diffDays := diffMs / 86400000 in
      if diffMins <? 1 then "Just now"
      else if diffMins <? 60 then pretty diffMins +:+ "m ago"
      else if diffHours <? 24 then pretty diffHours +:+ "h ago"
      else if diffDays <? 7 then pretty diffDays +:+ "d ago"
      else toLocaleDateString (Some date)
  end.

End FormatTime.

(** [activities.filter(a => a.type === type).length] *)
Definition count_type (type : string) (acts : list Dash.activity) : Z :=
  Z.of_nat (length (List.filter
                      (λ a, bool_decide (Dash.a_type a = type)) acts)).

(** The numbers [updateStats] shows. *)
Definition totalMessages (st : Dash.state) : Z :=
  count_type "message_sent" (Dash.activities st).
Definition activeSchedules (st : Dash.state) : Z :=
  Z.of_nat (length (List.filter
    (λ l, match Dash.heap st !! l with
          | Some s => Dash.s_active s
          | None => false
          end) (Dash.schedules st))).

(** The number [updateAnalyticsStats] hands to [toFixed(1)] (or shows as
    it is, when no message was sent):
    [totalMessages > 0 ? (totalMessages - failedMessages) / totalMessages
    * 100 : 100]. *)
Definition successRate (st : Dash.state) : Q :=
  let total := totalMessages st in
  let failed := count_type "message_failed" (Dash.activities st) in
  if 0 <? total
  then (inject_Z (total - failed) / inject_Z total * 100)%Q
  else 100%Q.

(** [this.activities.slice(-5).reverse()] of [loadRecentActivity]. *)
Definition recentActivities (st : Dash.state) : list Dash.activity :=
  reverse (drop (length (Dash.activities st) - 5) (Dash.activities st)).

End DashUtil.

(* ===================================================================== *)
(** ** The webhook model's URL validator *)
(* ===================================================================== *)

(** The [validator] of [url] in [WebhookSchema]:
    [/^https:\/\/discord\.com\/api\/webhooks\/\d+\/[\w-]+$/.test(v)]. *)
Module WebhookSchema.

(** [\d] *)
Definition is_digit (x : Ascii.ascii) : bool :=
  let n := Ascii.nat_of_ascii x in (48 <=? n)%nat && (n <=? 57)%nat.

(** [[\w-]]: a letter, a digit, the underscore or the hyphen. *)
Definition is_token_char (x : Ascii.ascii) : bool :=
  let n := Ascii.nat_of_ascii x in
  ((65 <=? n)%nat && (n <=? 90)%nat) || ((97 <=? n)%nat && (n <=? 122)%nat)
  || is_digit x || (n =? 95)%nat || (n =? 45)%nat.

(** The rest of [s] after the prefix [p], if [s] starts with it. *)
Fixpoint strip_prefix (p s : string) : option string :=
  match p, s with
  | EmptyString, _ => Some s
  | String a p', String b s' =>
      if Ascii.eqb a b then strip_prefix p' s' else None
  | String _ _, EmptyString => None
  end.

(** The rest of [s] after its leading digits. *)
Fixpoint skip_digits (s : string) : string :=
  match s with
  | String x rest => if is_digit x then skip_digits rest else s
  | EmptyString => s
  end.

Fixpoint all_token_chars (s : string) : bool :=
  match s with
  | EmptyString => true
  | String x rest => is_token_char x && all_token_chars rest
  end.

(** The match: the prefix, one digit at least, a slash, one token
    character at least, the end. *)
Definition validator (v : string) : bool :=
  match strip_prefix DashUtil.webhook_prefix v with
  | None => false
  | Some rest =>
      match rest with
      | String d _ =>
          is_digit d &&
          match skip_digits rest with
          | String slash token =>
              Ascii.eqb slash (Ascii.ascii_of_nat 47) &&
              match token with
              | String _ _ => all_token_chars token
              | EmptyString => false
              end
          | EmptyString => false
          end
      | EmptyString => false
      end
  end.

(** The bounds the schema puts on [rateLimit]. *)
Definition rateLimit_default : Z := 60.
Definition rateLimit_min : Z := 1.
Definition rateLimit_max : Z := 3600.

End WebhookSchema.

(* ===================================================================== *)
(** ** The application state of the manager *)
(* ===================================================================== *)

(** The parts of [WebhookManagerPro]'s state that [setLoading],
    [logActivity], [loadApplicationState], [deleteWebhook] and
    [sendMessage] work on. *)
Module ProState.

Record pro_activity := ProActivity {
  pa_id : string;
  pa_type : string;
  pa_message : string;
  pa_timestamp : Z
}.

Record app := App {
  app_webhooks : list Pro.pro_webhook;
  app_schedules : list Pro.pro_schedule;
  app_selected : gset string;
  app_activities : list pro_activity;
  app_loading : gset string;
  app_global : bool
}.

(** [setLoading(component, loading)]: the components that are loading are
    a set; the global flag says whether the set has a member. *)
Definition setLoading (component : string) (loading : bool) (st : app)
    : app :=
  let components :=
    if loading then {[component]} ∪ app_loading st
    else app_loading st ∖ {[component]} in
  App (app_webhooks st) (app_schedules st) (app_selected st)
      (app_activities st) components
      (bool_decide (0 < size components)%nat).

(** [logActivity(type, message)], with the id [generateId()] gives:
    append, then keep the last 100. *)
Definition logActivity (id type message : string) (now : Z) (st : app)
    : app :=
  let acts := app_activities st ++ [ProActivity id type message now] in
  let acts' := if (100 <? length acts)%nat
               then drop (length acts - 100) acts else acts in
  App (app_webhooks st) (app_schedules st) (app_selected st) acts'
      (app_loading st) (app_global st).

(** The activities part of [loadApplicationState]: what storage holds, if
    anything, cut to its last 100. *)
Definition loadActivities (stored : option (list pro_activity)) (st : app)
    : app :=
  match stored with
  | Some activities =>
      App (app_webhooks st) (app_schedules st) (app_selected st)
          (drop (length activities - 100) activities)
          (app_loading st) (app_global st)
  | None => st
  end.

(** [this.state.webhooks.findIndex(w => w.id === webhookId)] *)
Definition findIndex (webhookId : string) (ws : list Pro.pro_webhook)
    : option (nat * Pro.pro_webhook) :=
  list_find (λ w, Pro.pw_id w = webhookId) ws.

(** [deleteWebhook(webhookId)] up to its [await]: for an unknown id the
    error is thrown (and the [finally] clause has run); otherwise the
    webhook found is spliced out, its selection and the schedules that
    refer to the id are removed, and the call waits for the state to be
    saved, holding the webhook. *)
Definition deleteWebhook_start (webhookId : string) (st : app)
    : app * (Dispatcher.js_error + Pro.pro_webhook) :=
  let st1 := setLoading "webhooks" true st in
  match findIndex webhookId (app_webhooks st1) with
  | None =>
      (setLoading "webhooks" false st1,
       inl (Dispatcher.JsError "Error" "Webhook not found"))
  | Some (webhookIndex, webhook) =>
      (App (delete webhookIndex (app_webhooks st1))
           (List.filter
              (λ s, negb (bool_decide (Pro.ps_webhookId s = webhookId)))
              (app_schedules st1))
           (app_selected st1 ∖ {[webhookId]})
           (app_activities st1) (app_loading st1) (app_global st1),
       inr webhook)
  end.

(** [deleteWebhook] after its [await]: the activity, then the [finally]
    clause. *)
Definition deleteWebhook_resume (webhook : Pro.pro_webhook)
    (activityId : string) (now : Z) (st : app) : app :=
  setLoading "webhooks" false
    (logActivity activityId "webhook_deleted"
       ("Deleted webhook " +:+ dquote +:+ Pro.pw_name webhook +:+ dquote)
       now st).

(** The [catch] clause of [sendMessage]; the error is thrown on. *)
Definition send_failure (webhookId : string) (error : Dispatcher.js_error)
    : list Pro.effect * option Dispatcher.js_error :=
  ((if decide (webhookId ≠ EmptyString)
    then [Pro.UpdateWebhookStats webhookId (Stats.Outcome false 0%Q)]
    else [])
   ++ [Pro.Emit "message:failed" (Dispatcher.e_message error);
       Pro.Notify ("Failed to send message: "
                   +:+ Dispatcher.e_message error) "error"],
   Some error).

(** [sendMessage(webhookId, messageData)]: the effects, and the error
    thrown if any. *)
Definition sendMessage (ws : list Pro.pro_webhook) (isOnline : bool)
    (webhookId messageData : string) (net : Dispatcher.network)
    (responseTime : Q)
    : list Pro.effect * option Dispatcher.js_error :=
  match Pro.find_pro_webhook webhookId ws with
  | None =>
      send_failure webhookId (Dispatcher.JsError "Error" "Webhook not found")
  | Some w =>
      if decide (Pro.pw_status w ≠ "active") then
        send_failure webhookId
          (Dispatcher.JsError "Error" "Webhook is not active")
      else if negb isOnline then
        send_failure webhookId
          (Dispatcher.JsError "Error" "Cannot send message while offline")
      else
        match Dispatcher.sendDiscordWebhook net with
        | inr response =>
            ([Pro.Fetch (Pro.pw_url w) messageData;
              Pro.UpdateWebhookStats webhookId
                (Stats.Outcome true responseTime);
              Pro.LogActivity "message_sent"
                ("Sent message via " +:+ dquote +:+ Pro.pw_name w
                 +:+ dquote);
              Pro.Emit "message:sent" response;
              Pro.Notify "Message sent successfully!" "success"],
             None)
        | inl error =>
            let '(effects, thrown) := send_failure webhookId error in
            (Pro.Fetch (Pro.pw_url w) messageData :: effects, thrown)
        end
  end.

(** Whether a list of effects holds a request. *)
Definition sends (effects : list Pro.effect) : bool :=
  existsb Pro.is_fetch effects.

End ProState.

(* ===================================================================== *)
(** ** Debouncing *)
(* ===================================================================== *)

(** [debounce(func, wait)]: the function it returns keeps one timer; every
    call clears it and sets it anew, and the timer, when it fires, calls
    [func] with the arguments of the call that set it.  The clock is part
    of the events: a call at [t], or the clock reaching [t]; a timer that
    is due by then fires first. *)
Module Debounce.

Section Debounce.
Context {A : Type}.
Variable wait : Z.

Inductive debounce_event :=
  | Call (t : Z) (args : A)
  | Elapse (t : Z).

(** The timer that is set: when it is due, and with which arguments. *)
Definition timer := option (Z * A).

(** The timer fires if it is due at [t]: the call of [func] it makes, and
    the timer left. *)
Definition fire (t : Z) (tm : timer) : list A * timer :=
  match tm with
  | Some (due, args) => if due <=? t then ([args], None) else ([], tm)
  | None => ([], None)
  end.

Definition debounce_step (e : debounce_event) (tm : timer) : list A * timer :=
  match e with
  | Call t args =>
      let '(calls, _) := fire t tm in
      (calls, Some (t + wait, args))
  | Elapse t => fire t tm
  end.

(** The calls of [func] a sequence of events leads to, in order. *)
Fixpoint debounce_run (es : list debounce_event) (tm : timer) : list A * timer :=
  match es with
  | [] => ([], tm)
  | e :: rest =>
      let '(calls, tm') := debounce_step e tm in
      let '(calls', tm'') := debounce_run rest tm' in
      (calls ++ calls', tm'')
  end.

(** A burst: every call comes before the timer of the one before it is
    due. *)
Fixpoint in_burst (t : Z) (calls : list (Z * A)) : Prop :=
  match calls with
  | [] => True
  | (t', _) :: rest => t ≤ t' ∧ t' < t + wait ∧ in_burst t' rest
  end.

End Debounce.

End Debounce.

(* ===================================================================== *)
(** ** The storage service *)
(* ===================================================================== *)

(** [StorageService] over [localStorage], a map from keys to strings.
    [JSON.stringify] and [JSON.parse] are those of the platform:
    [stringify] and [parse] here, [parse] giving [None] where
    [JSON.parse] throws. *)
Module Storage.

Definition prefix : string := "whm_pro_".

Section Storage.
Context {V : Type}.
Variable stringify : V → string.
Variable parse : string → option V.

(** [get(key)]: [null] for a missing or empty item and for one that does
    not parse. *)
Definition get (key : string) (ls : gmap string string) : option V :=
  match ls !! (prefix +:+ key) with
  | Some item => if decide (item = EmptyString) then None else parse item
  | None => None
  end.

(** [set(key, value)]; [throws] tells whether writing the item fails. *)
Definition set (key : string) (value : V) (throws : bool)
    (ls : gmap string string) : bool * gmap string string :=
  if throws then (false, ls)
  else (true, <[prefix +:+ key := stringify value]> ls).

(** [remove(key)] *)
Definition remove (key : string) (ls : gmap string string)
    : bool * gmap string string :=
  (true, delete (prefix +:+ key) ls).

(** [clear()]: every key that starts with the prefix is removed. *)
Definition clear (ls : gmap string string) : bool * gmap string string :=
  (true, filter (λ kv, String.prefix prefix kv.1 = false) ls).

End Storage.

End Storage.

(* ===================================================================== *)
(** ** The analytics service as it runs *)
(* ===================================================================== *)

Module AnalyticsOps.

(** The service together with the consent item of [localStorage]. *)
Record browser := Browser {
  svc : Analytics.service;
  consentItem : option string
}.

(** [getConsent()]: [localStorage.getItem('whm_analytics_consent') ||
    'denied']. *)
Definition getConsent (b : browser) : string :=
  match consentItem b with
  | Some item => if decide (item = EmptyString) then "denied" else item
  | None => "denied"
  end.

(** [init()]: [this.enabled = consent === 'granted']. *)
Definition init (b : browser) : browser :=
  Browser
    (Analytics.setConsent (bool_decide (getConsent b = "granted")) (svc b))
    (consentItem b).

(** [setConsent(granted)], with the item it writes. *)
Definition setConsent_stored (granted : bool) (b : browser) : browser :=
  Browser (Analytics.setConsent granted (svc b))
          (Some (if granted then "granted" else "denied")).

(** What happens to the service, one action at a time. *)
Inductive analytics_action :=
  | Track (name properties : string) (now : Z)
  | FlushTimer
  | Resume (i : nat) (throws : bool).

Section Run.
Variables userAgent language : string.

Definition analytics_step (a : analytics_action) (st : Analytics.service) : Analytics.service :=
  match a with
  | Track name properties now =>
      Analytics.track userAgent language name properties now st
  | FlushTimer => Analytics.flush st
  | Resume i throws => Analytics.flush_resume i throws st
  end.

Definition analytics_run (actions : list analytics_action) (st : Analytics.service)
    : Analytics.service :=
  foldl (λ acc a, analytics_step a acc) st actions.

(** The events the [Track] actions of a sequence make. *)
Definition tracked (actions : list analytics_action) : list Analytics.event :=
  omap (λ a, match a with
             | Track name properties now =>
                 Some (Analytics.Event name properties now userAgent language)
             | _ => None
             end) actions.

End Run.

(** No [flush] of the sequence gets its batch delivered. *)
Definition never_delivers (actions : list analytics_action) : Prop :=
  Forall (λ a, match a with Resume _ throws => throws = true | _ => True end)
         actions.

(** The events that wait for delivery: the batches of the suspended
    flushes and the queue. *)
Definition undelivered (st : Analytics.service) : list Analytics.event :=
  concat (Analytics.f_events <$> Analytics.waiting st) ++ Analytics.queue st.

End AnalyticsOps.

(* ===================================================================== *)
(** * Facts *)
(* ===================================================================== *)

(** Arithmetic with division and remainder by constants. *)
Ltac zdiv := Z.to_euclidean_division_equations; lia.

(* ===================================================================== *)
(** ** Facts about the rate limiter *)
(* ===================================================================== *)

Module RateLimiterFacts.
Import RateLimiter.

Lemma recent_all ws (l : list Z) :
  Forall (λ x, ws < x) l → recent ws l = l.
Proof.
  unfold recent. induction 1 as [|x l Hx _ IH]; [done|].
  rewrite filter_cons_True; [|done]. by rewrite IH.
Qed.

Lemma recent_none ws (l : list Z) :
  Forall (λ x, x ≤ ws) l → recent ws l = [].
Proof.
  unfold recent. induction 1 as [|x l Hx _ IH]; [done|].
  rewrite filter_cons_False; [done|lia].
Qed.

Lemma recent_Forall ws (l : list Z) : Forall (λ x, ws < x) (recent ws l).
Proof.
  apply Forall_forall. intros x Hx.
  unfold recent in Hx. by apply list_elem_of_filter in Hx as [? _].
Qed.

Lemma recent_recent ws ws' (l : list Z) :
  ws' ≤ ws → recent ws (recent ws' l) = recent ws l.
Proof. intros H. unfold recent. apply list_filter_filter_l. lia. Qed.

(** What one call does to the list of the identifier it is made for. *)
Lemma checkLimit_stored id L W now (s : store) :
  checkLimit id L W now s =
    if Z.of_nat (length (recent (now - W) (stored id s))) <? L
    then (true, <[id := recent (now - W) (stored id s) ++ [now]]> s)
    else (false, <[id := recent (now - W) (stored id s)]> s).
Proof.
  unfold checkLimit, stored. cbn zeta.
  destruct (decide (is_Some (s !! id))) as [[l Hl]|Hn].
  - rewrite Hl. cbn. destruct (_ <? _); [|done].
    by rewrite insert_insert_eq.
  - apply eq_None_not_Some in Hn. rewrite Hn, lookup_insert_eq. cbn.
    by rewrite !insert_insert_eq.
Qed.

Lemma stored_insert id l (s : store) : stored id (<[id := l]> s) = l.
Proof. unfold stored. by rewrite lookup_insert_eq. Qed.

Lemma stored_insert_ne id id' l (s : store) :
  id ≠ id' → stored id' (<[id := l]> s) = stored id' s.
Proof. intros. unfold stored. by rewrite lookup_insert_ne. Qed.

Lemma checkLimit_other id id' L W now (s : store) :
  id ≠ id' → stored id' (checkLimit id L W now s).2 = stored id' s.
Proof.
  intros Hne. rewrite checkLimit_stored.
  destruct (_ <? _); cbn [snd]; by rewrite stored_insert_ne.
Qed.

Lemma run_app L W c1 c2 (s : store) :
  run L W (c1 ++ c2) s =
    ((run L W c1 s).1 ++ (run L W c2 (run L W c1 s).2).1,
     (run L W c2 (run L W c1 s).2).2).
Proof.
  revert s. induction c1 as [|[id now] c1 IH]; intros s; cbn.
  - by destruct (run L W c2 s).
  - destruct (checkLimit id L W now s) as [ok s'].
    rewrite IH. by destruct (run L W c1 s').
Qed.

Lemma run_length L W calls (s : store) :
  length (run L W calls s).1 = length calls.
Proof.
  revert s. induction calls as [|[id now] calls IH]; intros s; cbn; [done|].
  destruct (checkLimit id L W now s) as [ok s'].
  specialize (IH s'). destruct (run L W calls s'). cbn in *. by rewrite IH.
Qed.

(** A burst: while every stored timestamp stays inside the window of every
    call to come, the calls are allowed until the list is full. *)
Lemma burst id L W t1 (times : list Z) : ∀ s : store,
  Forall (λ x, t1 ≤ x) (stored id s) →
  Forall (λ t, t1 ≤ t ∧ t < t1 + W) times →
  (run L W (calls_of id times) s).1 =
    replicate
      (Z.to_nat (L - Z.of_nat (length (stored id s))) `min` length times)
      true
    ++ replicate
      (length times - Z.to_nat (L - Z.of_nat (length (stored id s))))
      false.
Proof.
  induction times as [|t times IH]; intros s Hs Ht.
  - cbn. by rewrite Nat.min_0_r.
  - apply Forall_cons in Ht as [[Ht1 Ht2] Ht].
    cbn [calls_of fmap list_fmap run].
    rewrite checkLimit_stored.
    rewrite recent_all; [|eapply Forall_impl; [exact Hs|cbn; lia]].
    destruct (Z.ltb_spec (Z.of_nat (length (stored id s))) L) as [Hlt|Hge].
    + specialize (IH (<[id := stored id s ++ [t]]> s)).
      rewrite stored_insert in IH.
      unfold calls_of in IH.
      destruct (run L W _ (<[id := stored id s ++ [t]]> s)) as [oks s''].
      cbn [fst] in *. rewrite IH; [|by apply Forall_app; split; [|repeat constructor]|done].
      rewrite length_app. cbn [length].
      replace (Z.to_nat (L - Z.of_nat (length (stored id s))))
        with (S (Z.to_nat (L - Z.of_nat (length (stored id s) + 1)))) by lia.
      rewrite <- Nat.succ_min_distr. cbn. done.
    + specialize (IH (<[id := stored id s]> s)).
      rewrite stored_insert in IH. unfold calls_of in IH.
      destruct (run L W _ (<[id := stored id s]> s)) as [oks s''].
      cbn [fst] in *. rewrite IH; [|done..].
      replace (Z.to_nat (L - Z.of_nat (length (stored id s)))) with 0%nat
        by lia.
      by rewrite !Nat.min_0_l, !Nat.sub_0_r.
Qed.

Lemma bounded_empty L : bounded L ∅.
Proof. intros id. left. unfold stored. by rewrite lookup_empty. Qed.

Lemma bounded_checkLimit id L W now (s : store) :
  bounded L s → bounded L (checkLimit id L W now s).2.
Proof.
  intros Hb id'. rewrite checkLimit_stored.
  pose proof (length_filter (λ x, now - W < x) (stored id s)) as Hlen.
  fold (recent (now - W) (stored id s)) in Hlen.
  destruct (Z.ltb_spec (Z.of_nat (length (recent (now - W) (stored id s)))) L)
    as [Hlt|Hge]; cbn [snd].
  - destruct (decide (id = id')) as [<-|Hne].
    + right. rewrite stored_insert, length_app. cbn. lia.
    + rewrite stored_insert_ne by done. apply Hb.
  - destruct (decide (id = id')) as [<-|Hne].
    + rewrite stored_insert. destruct (Hb id) as [Hnil|Hle].
      * left. by rewrite Hnil.
      * right. lia.
    + rewrite stored_insert_ne by done. apply Hb.
Qed.

Lemma bounded_run L W calls (s : store) :
  bounded L s → bounded L (run L W calls s).2.
Proof.
  revert s. induction calls as [|[id now] calls IH]; intros s Hb; [done|].
  cbn. pose proof (bounded_checkLimit id L W now s Hb) as Hb'.
  destruct (checkLimit id L W now s) as [ok s']. cbn [snd] in Hb'.
  specialize (IH s' Hb'). by destruct (run L W calls s').
Qed.

(** Once a stored timestamp has left the window, the call is allowed. *)
Lemma recovery id L W now o (s : store) :
  bounded L s → o ∈ stored id s → o + W ≤ now →
  (checkLimit id L W now s).1 = true.
Proof.
  intros Hb Ho Hnow. rewrite checkLimit_stored.
  pose proof (length_filter_lt (λ x, now - W < x) (stored id s) o Ho) as Hlt.
  fold (recent (now - W) (stored id s)) in Hlt.
  destruct (Hb id) as [Hnil|Hle]; [rewrite Hnil in Ho; by apply elem_of_nil in Ho|].
  destruct (Z.ltb_spec (Z.of_nat (length (recent (now - W) (stored id s)))) L);
    [done|]. lia.
Qed.

(** The calls of one identifier see nothing of the store but the list of
    that identifier. *)
Lemma run_stored_ext id L W (times : list Z) : ∀ s s' : store,
  stored id s = stored id s' →
  (run L W (calls_of id times) s).1 = (run L W (calls_of id times) s').1
  ∧ stored id (run L W (calls_of id times) s).2
    = stored id (run L W (calls_of id times) s').2.
Proof.
  induction times as [|t times IH]; intros s s' Hs; [done|].
  cbn [calls_of fmap list_fmap run]. rewrite !checkLimit_stored, <- Hs.
  destruct (_ <? _).
  - specialize (IH (<[id := recent (t - W) (stored id s) ++ [t]]> s)
                   (<[id := recent (t - W) (stored id s) ++ [t]]> s')).
    rewrite !stored_insert in IH. destruct (IH eq_refl) as [IH1 IH2].
    unfold calls_of in *.
    destruct (run L W _ (<[id := _]> s)), (run L W _ (<[id := _]> s')).
    cbn in *. by rewrite IH1, IH2.
  - specialize (IH (<[id := recent (t - W) (stored id s)]> s)
                   (<[id := recent (t - W) (stored id s)]> s')).
    rewrite !stored_insert in IH. destruct (IH eq_refl) as [IH1 IH2].
    unfold calls_of in *.
    destruct (run L W _ (<[id := _]> s)), (run L W _ (<[id := _]> s')).
    cbn in *. by rewrite IH1, IH2.
Qed.

(** The calls made for other identifiers in between change neither the
    results of the calls of an identifier nor what is stored for it. *)
Lemma run_projection id L W (calls : list (string * Z)) : ∀ s : store,
  results_for id calls (run L W calls s).1
    = (run L W (calls_of id (calls_for id calls)) s).1
  ∧ stored id (run L W calls s).2
    = stored id (run L W (calls_of id (calls_for id calls)) s).2.
Proof.
  induction calls as [|[id' now] calls IH]; intros s; [done|].
  cbn [run calls_for results_for].
  destruct (decide (id' = id)) as [->|Hne].
  - cbn [calls_of fmap list_fmap run].
    destruct (checkLimit id L W now s) as [ok s1].
    destruct (IH s1) as [IH1 IH2]. unfold calls_of in *.
    destruct (run L W calls s1), (run L W _ s1). cbn in *.
    by rewrite IH1, IH2.
  - pose proof (checkLimit_other id' id L W now s Hne) as Hs.
    destruct (checkLimit id' L W now s) as [ok s1]. cbn [snd] in Hs.
    destruct (IH s1) as [IH1 IH2].
    destruct (run_stored_ext id L W (calls_for id calls) s1 s Hs)
      as [He1 He2].
    destruct (run L W calls s1). cbn in *.
    by rewrite IH1, IH2, He1, He2.
Qed.

Lemma monotone_snoc (times : list Z) n :
  monotone (times ++ [n]) → monotone times ∧ Forall (λ u, u ≤ n) times.
Proof.
  induction times as [|t times IH]; cbn; [by auto|].
  intros [Hall Hm]. apply Forall_app in Hall as [Hall Hn].
  rewrite Forall_singleton in Hn. destruct (IH Hm) as [Hm' Hle].
  split; [by split|]. by constructor.
Qed.

Lemma allowed_times_snoc (times : list Z) (oks : list bool) n ok :
  length times = length oks →
  allowed_times (times ++ [n]) (oks ++ [ok]) =
    allowed_times times oks ++ (if ok then [n] else []).
Proof.
  revert oks. induction times as [|t times IH]; intros [|o oks] Hlen;
    try discriminate; cbn.
  - by destruct ok.
  - injection Hlen as Hlen. rewrite IH by done. by destruct o.
Qed.

Lemma in_window_recent W t m (l : list Z) :
  t - W < m → m ≤ t → in_window W t (recent (m - W) l) = in_window W t l.
Proof.
  intros H1 H2. unfold in_window, recent.
  apply list_filter_filter_l. lia.
Qed.

(** Under a clock that does not run backwards, the stored list of an
    identifier is the live part of its allowed calls, and no window holds
    more than [L] allowed calls. *)
Lemma window_invariant id L W (times : list Z) :
  0 ≤ L → monotone times →
  (∀ m, Forall (λ u, u ≤ m) times →
     recent (m - W) (stored id (run L W (calls_of id times) ∅).2) =
     recent (m - W) (allowed_times times (run L W (calls_of id times) ∅).1))
  ∧ (∀ t, Z.of_nat (length (in_window W t
             (allowed_times times (run L W (calls_of id times) ∅).1))) ≤ L).
Proof.
  intros HL. induction times as [|n times IH] using rev_ind; intros Hm.
  - cbn. split; [|intros; lia]. intros m _. unfold stored.
    by rewrite lookup_empty.
  - apply monotone_snoc in Hm as [Hm Hle].
    destruct (IH Hm) as [IHa IHb]. clear IH.
    unfold calls_of in *. rewrite fmap_app, run_app. cbn [fmap list_fmap].
    pose proof (run_length L W ((λ now, (id, now)) <$> times) ∅) as Hlen.
    rewrite length_fmap in Hlen.
    destruct (run L W ((λ now, (id, now)) <$> times) ∅) as [oks s].
    cbn [fst snd] in *. cbn [run].
    rewrite checkLimit_stored.
    specialize (IHa n Hle) as Hpr.
    destruct (Z.ltb_spec
                (Z.of_nat (length (recent (n - W) (stored id s)))) L)
      as [Hlt|Hge]; cbn [fst snd];
      rewrite allowed_times_snoc by done; rewrite stored_insert.
    + split.
      * intros m Hall. apply Forall_app in Hall as [Hall Hn].
        rewrite Forall_singleton in Hn.
        unfold recent at 1 3. rewrite !filter_app.
        fold (recent (m - W) (recent (n - W) (stored id s))).
        fold (recent (m - W) (allowed_times times oks)).
        rewrite recent_recent by lia. by rewrite IHa.
      * intros t. unfold in_window. rewrite filter_app.
        fold (in_window W t (allowed_times times oks)).
        rewrite length_app.
        destruct (decide (t - W < n ∧ n ≤ t)) as [[H1 H2]|Hout].
        -- rewrite filter_cons_True, filter_nil by done. cbn [length].
           rewrite <- (in_window_recent W t n) by done.
           rewrite <- Hpr.
           pose proof (length_filter (λ x, t - W < x ∧ x ≤ t)
                         (recent (n - W) (stored id s))) as Hf.
           unfold in_window. lia.
        -- rewrite filter_cons_False, filter_nil by done. cbn [length].
           specialize (IHb t). lia.
    + rewrite app_nil_r. split; [|done].
      intros m Hall. apply Forall_app in Hall as [Hall Hn].
      rewrite Forall_singleton in Hn.
      rewrite recent_recent by lia. by apply IHa.
Qed.

End RateLimiterFacts.

Section RateLimiterClaims.
Import RateLimiter RateLimiterFacts.

(** C1. The sliding window of [checkLimit], for every identifier, limit
    [L] and window [W].

    - A burst: when nothing stored for the identifier is still live at
      the first call, of the calls made within less than [W] milliseconds
      of that first call exactly the first [L] are allowed and every
      further one, the [(L+1)]-th first of all, is rejected.
    - Any window: under a clock that does not run backwards, no span
      [(t - W, t]] holds more than [L] allowed calls.
    - Recovery: once [W] milliseconds have passed since a stored
      timestamp (the oldest allowed call, in particular), the next call
      for the identifier is allowed again.
    - Each identifier has a window of its own: the calls made for other
      identifiers in between change none of the results. *)
Theorem checkLimit_sliding_window (identifier : string) (L W : Z) :
  (∀ (s : store) (t1 : Z) (rest : list Z),
     Forall (λ x, x + W ≤ t1) (stored identifier s) →
     Forall (λ t, t1 ≤ t ∧ t < t1 + W) rest →
     (run L W (calls_of identifier (t1 :: rest)) s).1 =
       replicate (Z.to_nat L `min` S (length rest)) true
       ++ replicate (S (length rest) - Z.to_nat L) false)
  ∧ (∀ (times : list Z) (t : Z),
       0 ≤ L → monotone times →
       Z.of_nat (length (in_window W t
         (allowed_times times
            (run L W (calls_of identifier times) ∅).1))) ≤ L)
  ∧ (∀ (calls : list (string * Z)) (now o : Z),
       o ∈ stored identifier (run L W calls ∅).2 →
       o + W ≤ now →
       (checkLimit identifier L W now (run L W calls ∅).2).1 = true)
  ∧ (∀ (calls : list (string * Z)) (s : store),
       results_for identifier calls (run L W calls s).1 =
         (run L W (calls_of identifier (calls_for identifier calls)) s).1).
Proof.
  split; [|split; [|split]]; [| | |intros; apply run_projection].
  - intros s t1 rest Hs Hrest.
    cbn [calls_of fmap list_fmap run]. rewrite checkLimit_stored.
    rewrite recent_none; [|eapply Forall_impl; [exact Hs|cbn; lia]].
    cbn [length].
    destruct (Z.ltb_spec (Z.of_nat 0) L) as [Hlt|Hge].
    + pose proof (burst identifier L W t1 rest
                    (<[identifier := [] ++ [t1]]> s)) as Hb.
      rewrite stored_insert in Hb. unfold calls_of in Hb.
      destruct (run L W _ (<[identifier := [] ++ [t1]]> s)) as [oks s'].
      cbn [fst] in *.
      rewrite Hb; [|by repeat constructor|done].
      cbn [app length].
      replace (Z.to_nat L) with (S (Z.to_nat (L - Z.of_nat 1))) by lia.
      by rewrite <- Nat.succ_min_distr.
    + pose proof (burst identifier L W t1 rest (<[identifier := []]> s))
        as Hb.
      rewrite stored_insert in Hb. unfold calls_of in Hb.
      destruct (run L W _ (<[identifier := []]> s)) as [oks s'].
      cbn [fst] in *. rewrite Hb; [|by constructor|done].
      cbn [length].
      replace (Z.to_nat (L - Z.of_nat 0)) with 0%nat by lia.
      replace (Z.to_nat L) with 0%nat by lia.
      by rewrite !Nat.min_0_l, !Nat.sub_0_r.
  - intros times t HL Hm.
    by apply (window_invariant identifier L W times HL Hm).
  - intros calls now o Ho Hnow.
    apply (recovery identifier L W now o); [|done..].
    apply bounded_run, bounded_empty.
Qed.

(** An instance of C1: limit 2, window 1000 ms, calls at 0, 10 and 20,
    then one at 1000. *)
Lemma checkLimit_sliding_window_witness :
  (run 2 1000 (calls_of "hook" [0; 10; 20]) ∅).1 = [true; true; false]
  ∧ Z.of_nat (length (in_window 1000 20
       (allowed_times [0; 10; 20]
          (run 2 1000 (calls_of "hook" [0; 10; 20]) ∅).1))) ≤ 2
  ∧ (checkLimit "hook" 2 1000 1000
       (run 2 1000 (calls_of "hook" [0; 10; 20]) ∅).2).1 = true.
Proof.
  destruct (checkLimit_sliding_window "hook" 2 1000)
    as (Hb & Hw & Hr & _).
  split; [|split].
  - apply (Hb ∅ 0 [10; 20]).
    + vm_compute. constructor.
    + repeat constructor; lia.
  - apply (Hw [0; 10; 20] 20); [lia|].
    cbn. repeat split; repeat constructor; lia.
  - apply (Hr (calls_of "hook" [0; 10; 20]) 1000 0); [|lia].
    vm_compute. constructor.
Defined.

(** C10. The stored state under repeated [checkLimit] calls with a fixed
    limit [L] and window [W], from a new limiter.  After every call, for
    the identifier called: a rejected call stores the pruned list as it
    is, with no timestamp appended; an allowed call stores the pruned list
    with [now] appended; the list holds only timestamps strictly newer
    than [now - W] (for a window [W > 0]); and it is no longer than [L]
    (for a limit [L >= 0]). *)
Theorem checkLimit_invariant (L W : Z) (calls : list (string * Z))
    (identifier : string) (now : Z) :
  let s := (run L W calls ∅).2 in
  let pruned := recent (now - W) (stored identifier s) in
  let r := checkLimit identifier L W now s in
  (r.1 = false → stored identifier r.2 = pruned)
  ∧ (r.1 = true → stored identifier r.2 = pruned ++ [now])
  ∧ (0 < W → Forall (λ t, now - W < t) (stored identifier r.2))
  ∧ (0 ≤ L → Z.of_nat (length (stored identifier r.2)) ≤ L).
Proof.
  intros s pruned r.
  assert (Hb : bounded L s) by apply bounded_run, bounded_empty.
  subst r. rewrite checkLimit_stored. fold pruned.
  pose proof (recent_Forall (now - W) (stored identifier s)) as Hlive.
  pose proof (length_filter (λ x, now - W < x) (stored identifier s)) as Hlen.
  fold (recent (now - W) (stored identifier s)) in Hlen.
  fold pruned in Hlive, Hlen.
  destruct (Z.ltb_spec (Z.of_nat (length pruned)) L) as [Hlt|Hge];
    cbn [fst snd]; rewrite stored_insert.
  - split; [done|]. split; [done|]. split.
    + intros HW. apply Forall_app. split; [done|].
      repeat constructor. lia.
    + intros _. rewrite length_app. cbn. lia.
  - split; [done|]. split; [done|]. split; [done|].
    intros HL. destruct (Hb identifier) as [Hnil|Hle]; [|lia].
    rewrite Hnil in Hlen. cbn in Hlen. lia.
Qed.

(** An instance of C10: limit 1, window 1000 ms; after an allowed call at
    0, a call at 500 is rejected and leaves the list as pruned. *)
Lemma checkLimit_invariant_witness :
  let r := checkLimit "hook" 1 1000 500
             (run 1 1000 [("hook", 0)] ∅).2 in
  r.1 = false ∧ stored "hook" r.2 = [0]
  ∧ Forall (λ t, 500 - 1000 < t) (stored "hook" r.2)
  ∧ Z.of_nat (length (stored "hook" r.2)) ≤ 1.
Proof.
  pose proof (checkLimit_invariant 1 1000 [("hook", 0)] "hook" 500)
    as (Hrej & _ & Hlive & Hlen).
  split; [vm_compute; reflexivity|].
  split; [exact (Hrej eq_refl)|].
  split; [apply Hlive; lia|apply Hlen; lia].
Defined.

End RateLimiterClaims.

(* ===================================================================== *)
(** ** Facts about the date arithmetic *)
(* ===================================================================== *)

Module JSDateFacts.
Import JSDate.


(** [YearFromTime t] is the year that holds [t]. *)
Lemma YearFromTime_spec t :
  DayFromYear (YearFromTime t) ≤ Day t
  ∧ Day t < DayFromYear (YearFromTime t + 1).
Proof.
  unfold YearFromTime. cbn zeta. generalize (Day t). intros d.
  assert (Hest : DayFromYear (1970 + d * 400 / 146097 - 1) ≤ d
                 ∧ d < DayFromYear (1970 + d * 400 / 146097 + 2)).
  { unfold DayFromYear. zdiv. }
  set (y := 1970 + d * 400 / 146097) in *.
  destruct (Z.ltb_spec d (DayFromYear y)).
  - replace (y - 1 + 1) with y by lia. lia.
  - destruct (Z.leb_spec (DayFromYear (y + 1)) d).
    + replace (y + 1 + 1) with (y + 2) by lia. lia.
    + lia.
Qed.

Lemma TimeFromYear_spec t :
  TimeFromYear (YearFromTime t) ≤ t ∧ t < TimeFromYear (YearFromTime t + 1).
Proof.
  pose proof (YearFromTime_spec t) as [H1 H2].
  unfold TimeFromYear, Day, msPerDay in *. zdiv.
Qed.



Lemma InLeapYear_eq t :
  InLeapYear t = if isLeapYear (YearFromTime t) then 1 else 0.
Proof. done. Qed.










Section LocalZone.
Variable LocalTZA : zone.



End LocalZone.




(** The last day of January plus a month runs over into March. *)
Example january_31_plus_a_month :
  let t := 1706659200000 in
  (YearFromTime t, MonthFromTime t, DateFromTime t) = (2024, 0, 31)
  ∧ setMonth utc (Some t)
      ((λ m, m + 1) <$> getMonth utc (Some t))
    = Some 1709337600000
  ∧ (YearFromTime 1709337600000, MonthFromTime 1709337600000,
     DateFromTime 1709337600000) = (2024, 2, 2).
Proof. vm_compute. done. Qed.

End JSDateFacts.

(* ===================================================================== *)
(** ** Facts about the polling scheduler *)
(* ===================================================================== *)

Module DashFacts.
Import Dash.

(** A round only adds waiting calls and requests. *)
Lemma tick_fold now (ls : list loc) : ∀ st,
  foldl
    (λ acc l,
       match heap acc !! l with
       | Some s => if due now s then executeSchedule_start l acc else acc
       | None => acc
       end) st ls =
  State (webhooks st) (schedules st) (heap st) (activities st)
        (inflight st ++ (starts_of now (heap st) (webhooks st) ls).*1)
        (requests st ++ (starts_of now (heap st) (webhooks st) ls).*2).
Proof.
  induction ls as [|l ls IH]; intros st.
  - destruct st. cbn. by rewrite !app_nil_r.
  - cbn [foldl]. rewrite IH. unfold starts_of, executeSchedule_start.
    cbn [omap]. destruct (heap st !! l) as [s|] eqn:Hl; cbn;
      rewrite ?Hl; cbn; [|done].
    destruct (due now s); cbn; rewrite ?Hl; cbn; [|done].
    destruct (find_webhook (s_webhookId s) (webhooks st)) as [w|]; cbn;
      rewrite ?Hl; cbn; [|done].
    by rewrite <- !app_assoc.
Qed.

Lemma tick_eq now st :
  tick now st =
  State (webhooks st) (schedules st) (heap st) (activities st)
        (inflight st ++ (starts now st).*1)
        (requests st ++ (starts now st).*2).
Proof. apply tick_fold. Qed.

Lemma starts_of_elem now h ws (ls : list loc) l s w :
  l ∈ ls → h !! l = Some s → due now s = true →
  find_webhook (s_webhookId s) ws = Some w →
  (Pending l w, Request (w_url w) (s_message s)) ∈ starts_of now h ws ls.
Proof.
  intros Hin Hl Hdue Hw. unfold starts_of. apply list_elem_of_omap.
  exists l. split; [done|]. rewrite Hl. cbn. rewrite Hdue, Hw. done.
Qed.

Lemma filter_length_pos {A} (f : A → bool) (l : list A) x :
  x ∈ l → f x = true → (0 < length (List.filter f l))%nat.
Proof.
  intros Hin Hf. induction l as [|y l IH]; [by apply elem_of_nil in Hin|].
  cbn. apply elem_of_cons in Hin as [<-|Hin].
  - rewrite Hf. cbn. lia.
  - specialize (IH Hin). destruct (f y); cbn; lia.
Qed.

(** Adding an activity touches nothing but the activity log. *)
Lemma addActivity_fields type message now st :
  webhooks (addActivity type message now st) = webhooks st
  ∧ schedules (addActivity type message now st) = schedules st
  ∧ heap (addActivity type message now st) = heap st
  ∧ inflight (addActivity type message now st) = inflight st
  ∧ requests (addActivity type message now st) = requests st.
Proof. done. Qed.

(** Below the cap of 100 the log just grows by the new activity. *)
Lemma addActivity_below_cap type message now st :
  (length (activities st) < 100)%nat →
  activities (addActivity type message now st) =
    activities st ++ [Activity type message now].
Proof.
  intros Hlen. unfold addActivity, set_activities. cbn [activities].
  destruct (Nat.ltb_spec 100
              (length (activities st ++ [Activity type message now])))
    as [Hgt|_]; [|done].
  rewrite length_app in Hgt. cbn [length] in Hgt. lia.
Qed.




End DashFacts.

Section DashClaims.
Import Dash DashFacts.

(** Against C2 as stated: a daily schedule is due, a round at 60000 sends
    its request, and while that request is still waiting the round at
    120000 sends a second one for the same schedule. *)
Lemma second_tick_dispatches_again :
  let st1 := tick 60000 (example_state "daily") in
  let st2 := tick 120000 st1 in
  inflight_count 0%nat st1 = 1%nat
  ∧ inflight_count 0%nat st2 = 2%nat
  ∧ requests st2 = requests st1 ++ requests st1
  ∧ requests st2 ≠ requests st1.
Proof. vm_compute. repeat split; discriminate. Qed.

(** C2, amended.  A round of the checker hands every schedule that is
    active and due to [executeSchedule], whether or not an earlier call
    for it is still waiting: the calls and requests it adds are determined
    by the schedules and webhooks alone, and each schedule that is active,
    due and has its webhook gets one more waiting call at every round. *)
Theorem tick_dispatches_regardless_of_inflight (now : Z) (st : state) :
  inflight (tick now st) = inflight st ++ (starts now st).*1
  ∧ requests (tick now st) = requests st ++ (starts now st).*2
  ∧ (∀ q, starts now (set_inflight q st) = starts now st)
  ∧ (∀ l s w,
       l ∈ schedules st → heap st !! l = Some s → due now s = true →
       find_webhook (s_webhookId s) (webhooks st) = Some w →
       (inflight_count l st < inflight_count l (tick now st))%nat).
Proof.
  rewrite tick_eq. cbn [inflight requests]. repeat split.
  intros l s w Hin Hl Hdue Hw.
  unfold inflight_count. cbn [inflight].
  rewrite List.filter_app, length_app.
  pose proof (starts_of_elem now (heap st) (webhooks st) (schedules st)
                l s w Hin Hl Hdue Hw) as Helem.
  apply (list_elem_of_fmap_2 fst) in Helem. cbn [fst] in Helem.
  pose proof (filter_length_pos (λ p, bool_decide (p_schedule p = l))
                ((starts now st).*1) (Pending l w) Helem) as Hpos.
  cbn [p_schedule] in Hpos. rewrite bool_decide_eq_true_2 in Hpos by done.
  specialize (Hpos eq_refl). lia.
Qed.

(** An instance of C2 amended: the second round of the example above. *)
Lemma tick_dispatches_regardless_of_inflight_witness :
  let st1 := tick 60000 (example_state "daily") in
  (inflight_count 0%nat st1 < inflight_count 0%nat (tick 120000 st1))%nat.
Proof.
  apply (tick_dispatches_regardless_of_inflight 120000
           (tick 60000 (example_state "daily")))
    with (s := example_schedule "daily") (w := example_webhook).
  - vm_compute. constructor.
  - reflexivity.
  - reflexivity.
  - reflexivity.
Defined.




(** Against C4 as stated: the daily example schedule, due at the epoch,
    is dispatched by the round at 60000 and answered with status 500;
    afterwards it is still due at the epoch, not a day later. *)
Lemma failed_dispatch_not_advanced :
  let st' := settle JSDate.utc 0%nat (Responded 500) 61000
               (tick 60000 (example_state "daily")) in
  s_scheduleTime <$> heap st' !! 0%nat = Some (Some 0)
  ∧ s_scheduleTime <$> heap st' !! 0%nat
    ≠ Some (Some (0 + JSDate.msPerDay)).
Proof. vm_compute. split; [reflexivity|discriminate]. Qed.

(** C4, amended.  When the dispatch of a schedule fails (the request is
    rejected, or the response is not [ok]), the schedule stays in the list
    as it is, active and with its due time unchanged, so that the next
    round finds it due again; one ["message_failed"] activity is added to
    the log, and the count of failed messages the dashboard shows goes up
    by one as long as the log is below its cap of 100. *)
Theorem failed_dispatch_keeps_schedule (tza : JSDate.zone) (st : state) (i : nat)
    (p : pending) (r : fetch_result) (now : Z) :
  inflight st !! i = Some p →
  failed r = true →
  heap (settle tza i r now st) = heap st
  ∧ schedules (settle tza i r now st) = schedules st
  ∧ (∀ now', dispatched now' (settle tza i r now st) = dispatched now' st)
  ∧ activities (settle tza i r now st) =
      activities (addActivity "message_failed"
                    (failed_message (p_webhook p)) now st)
  ∧ ((length (activities st) < 100)%nat →
     failedMessages (settle tza i r now st) = S (failedMessages st)).
Proof.
  intros Hi Hf.
  assert (Hst : settle tza i r now st =
                addActivity "message_failed" (failed_message (p_webhook p))
                  now (set_inflight (delete i (inflight st)) st)).
  { unfold settle. rewrite Hi. destruct r as [|status]; [done|].
    cbn in Hf. cbn. by destruct (response_ok status). }
  rewrite Hst. repeat split.
  intros Hlen. unfold failedMessages.
  rewrite addActivity_below_cap by done. cbn [set_inflight activities].
  rewrite List.filter_app, length_app.
  change (length (List.filter _ [Activity "message_failed" _ _])) with 1%nat.
  lia.
Qed.

(** An instance of C4 amended: the failed dispatch of the example above. *)
Lemma failed_dispatch_keeps_schedule_witness :
  let st := tick 60000 (example_state "daily") in
  heap (settle JSDate.utc 0%nat (Responded 500) 61000 st) = heap st
  ∧ failedMessages (settle JSDate.utc 0%nat (Responded 500) 61000 st) = 1%nat.
Proof.
  destruct (failed_dispatch_keeps_schedule JSDate.utc
              (tick 60000 (example_state "daily")) 0%nat
              (Pending 0%nat example_webhook) (Responded 500) 61000
              eq_refl eq_refl) as (Hh & _ & _ & _ & Hc).
  split; [exact Hh|]. apply Hc. vm_compute. lia.
Defined.

(** Against C5 as stated.  The webhook of the daily example schedule is
    deleted; the round at 60000 finds the schedule due and does nothing:
    no request, but no failure recorded either, and the schedule is still
    due at the epoch, not a day later. *)
Lemma orphaned_schedule_not_recorded :
  let st := run_actions JSDate.utc [DeleteWebhook "w1" 1000; Tick 60000]
              (example_state "daily") in
  requests st = []
  ∧ failedMessages st = 0%nat
  ∧ a_type <$> activities st = ["webhook_deleted"]
  ∧ s_scheduleTime <$> heap st !! 0%nat = Some (Some 0)
  ∧ s_scheduleTime <$> heap st !! 0%nat
    ≠ Some (Some (0 + JSDate.msPerDay)).
Proof. vm_compute. repeat split; discriminate. Qed.

(** C5, amended.  For a schedule whose webhook is missing,
    [executeSchedule] returns at once and changes nothing: a round that
    finds the schedule due sends no request for it, records no outcome and
    leaves its due time alone (a round never touches the schedules or the
    activity log), so every later round finds it due again.  Whether a
    webhook is active is not looked at: the request of a due schedule goes
    out to an inactive webhook too. *)
Theorem orphaned_schedule_skipped (st : state) (l : loc) (s : schedule) :
  heap st !! l = Some s →
  find_webhook (s_webhookId s) (webhooks st) = None →
  executeSchedule_start l st = st
  ∧ (∀ now,
       (∀ p, p ∈ (starts now st).*1 → p_schedule p ≠ l)
       ∧ heap (tick now st) = heap st
       ∧ schedules (tick now st) = schedules st
       ∧ activities (tick now st) = activities st)
  ∧ (∀ now l' s' w,
       l' ∈ schedules st → heap st !! l' = Some s' → due now s' = true →
       find_webhook (s_webhookId s') (webhooks st) = Some w →
       w_active w = false →
       Request (w_url w) (s_message s') ∈ requests (tick now st)).
Proof.
  intros Hl Hw. split; [|split].
  - unfold executeSchedule_start. by rewrite Hl, Hw.
  - intros now. rewrite tick_eq. cbn [heap schedules activities].
    repeat split. intros p Hp Heq.
    apply list_elem_of_fmap in Hp as ([p' rq] & -> & Hp). cbn [fst] in Heq.
    unfold starts, starts_of in Hp.
    apply list_elem_of_omap in Hp as (l0 & _ & Hp).
    destruct (heap st !! l0) as [s0|] eqn:Hl0; cbn in Hp; [|done].
    destruct (due now s0); [|done].
    destruct (find_webhook (s_webhookId s0) (webhooks st)) as [w0|] eqn:Hw0;
      cbn in Hp; [|done].
    injection Hp as <- <-. cbn [p_schedule] in Heq. subst l0.
    rewrite Hl in Hl0. injection Hl0 as ->. by rewrite Hw in Hw0.
  - intros now l' s' w Hin Hl' Hdue Hw' _.
    rewrite tick_eq. cbn [requests]. apply elem_of_app. right.
    pose proof (starts_of_elem now (heap st) (webhooks st) (schedules st)
                  l' s' w Hin Hl' Hdue Hw') as Helem.
    by apply (list_elem_of_fmap_2 snd) in Helem.
Qed.

(** An instance of C5 amended: the example schedule after its webhook was
    deleted. *)
Lemma orphaned_schedule_skipped_witness :
  let st := deleteWebhook "w1" 1000 (example_state "daily") in
  executeSchedule_start 0%nat st = st
  ∧ activities (tick 60000 st) = activities st.
Proof.
  destruct (orphaned_schedule_skipped
              (deleteWebhook "w1" 1000 (example_state "daily")) 0%nat
              (example_schedule "daily") eq_refl eq_refl)
    as (Hs & Ht & _).
  split; [exact Hs|]. by destruct (Ht 60000) as (_ & _ & _ & Ha).
Defined.




End DashClaims.

(* ===================================================================== *)
(** ** Facts about the dispatcher *)
(* ===================================================================== *)

Module DispatcherFacts.
Import Dispatcher.

(** The outcomes of [sendDiscordWebhook] that come out as they should: a
    request that has not settled when the timer fires fails as a timeout;
    a network failure is thrown on as it is, and is no timeout; a response
    with a status outside 200..299 fails with the status in the message,
    and is neither of the two; a response with [ok] and a JSON body gives
    the parsed body. *)
Lemma sendDiscordWebhook_classification :
  (∀ delay r, timeoutMs ≤ delay →
     ∃ e, sendDiscordWebhook (Some (delay, r)) = inl e ∧ is_timeout e)
  ∧ (∃ e, sendDiscordWebhook None = inl e ∧ is_timeout e)
  ∧ (∀ delay message, delay < timeoutMs →
     ∃ e, sendDiscordWebhook (Some (delay, NetworkError message)) = inl e
          ∧ is_transport_error e ∧ ¬ is_timeout e)
  ∧ (∀ delay status statusText json,
     delay < timeoutMs → response_is_ok status = false →
     ∃ e, sendDiscordWebhook
            (Some (delay, Response status statusText json)) = inl e
          ∧ is_http_error status e ∧ ¬ is_timeout e
          ∧ ¬ is_transport_error e)
  ∧ (∀ delay status statusText value,
     delay < timeoutMs → response_is_ok status = true →
     sendDiscordWebhook
       (Some (delay, Response status statusText (inr value))) = inr value).
Proof.
  unfold sendDiscordWebhook, fetch_with_signal.
  split; [|split; [|split; [|split]]].
  - intros delay r Hd. destruct (Z.ltb_spec delay timeoutMs); [lia|].
    by eexists.
  - by eexists.
  - intros delay message Hd. destruct (Z.ltb_spec delay timeoutMs); [|lia].
    eexists. split; [done|]. by split.
  - intros delay status statusText json Hd Hok.
    destruct (Z.ltb_spec delay timeoutMs); [|lia].
    cbn [try_block]. rewrite Hok. eexists. split; [done|].
    split; [by exists statusText|]. split; [|done].
    unfold is_timeout, catch_clause. cbn. intros [=].
  - intros delay status statusText value Hd Hok.
    destruct (Z.ltb_spec delay timeoutMs); [|lia].
    cbn [try_block]. by rewrite Hok.
Qed.

(** A response with [ok] whose body is not JSON makes [response.json()]
    reject, and that error is what the caller gets. *)
Lemma ok_response_without_json delay status statusText error :
  delay < timeoutMs → response_is_ok status = true →
  sendDiscordWebhook (Some (delay, Response status statusText (inl error)))
    = inl (catch_clause error).
Proof.
  intros Hd Hok. unfold sendDiscordWebhook, fetch_with_signal.
  destruct (Z.ltb_spec delay timeoutMs); [|lia].
  cbn [try_block]. by rewrite Hok.
Qed.

(** A status of three digits is written with three characters. *)
Lemma pretty_status_length status :
  100 ≤ status ≤ 999 → String.length (pretty status) = 3%nat.
Proof.
  intros Hs.
  assert (Hall : forallb
            (λ n, Nat.eqb (String.length (pretty (Z.of_nat n + 100))) 3)
            (seq 0 900) = true) by (vm_compute; reflexivity).
  rewrite forallb_forall in Hall.
  specialize (Hall (Z.to_nat (status - 100))).
  replace (Z.of_nat (Z.to_nat (status - 100)) + 100) with status in Hall
    by lia.
  apply Nat.eqb_eq, Hall, in_seq. lia.
Qed.

Lemma append_inj_length (a b x y : string) :
  String.length a = String.length b → a +:+ x = b +:+ y → a = b.
Proof.
  revert b. induction a as [|c a IH]; intros [|d b] Hlen Heq;
    try discriminate; [done|].
  cbn in *. injection Heq as -> Heq. injection Hlen as Hlen.
  f_equal. by apply IH.
Qed.

(** The message of an http error keeps the status: two statuses with the
    same message are the same. *)
Lemma http_error_status_retained status1 status2 e :
  100 ≤ status1 ≤ 999 → 100 ≤ status2 ≤ 999 →
  is_http_error status1 e → is_http_error status2 e → status1 = status2.
Proof.
  intros H1 H2 [t1 ->] [t2 Heq]. injection Heq as Heq.
  apply (inj pretty). eapply append_inj_length; [|exact Heq].
  by rewrite !pretty_status_length.
Qed.

End DispatcherFacts.

Section DispatcherClaims.
Import Dispatcher.

(** C6, at the input where the code leaves it: the answer a webhook gives
    to an accepted message, status 204 with an empty body, arrives well
    within the ten seconds; [response.json()] rejects on the empty body
    and [sendDiscordWebhook] throws that error, so the caller sees a
    failure although the response was a 2xx one. *)
Theorem no_content_response_is_thrown :
  response_is_ok 204 = true
  ∧ sendDiscordWebhook
      (Some (120, Response 204 "No Content"
                    (inl (JsError "SyntaxError"
                            "Unexpected end of JSON input"))))
    = inl (JsError "SyntaxError" "Unexpected end of JSON input").
Proof. split; reflexivity. Qed.

End DispatcherClaims.

(* ===================================================================== *)
(** ** Facts about the analytics queue *)
(* ===================================================================== *)

Module AnalyticsFacts.
Import Analytics.

(** A [flush] of a queue that is not empty takes the whole queue as its
    batch and leaves an empty queue behind. *)
Lemma flush_takes_queue st :
  queue st ≠ [] →
  queue (flush st) = []
  ∧ waiting (flush st) =
      waiting st ++ [FlushCall (queue st) (localStore st)].
Proof. intros Hq. unfold flush. by destruct (queue st). Qed.

Lemma flush_enabled st : enabled (flush st) = enabled st.
Proof. unfold flush. by destruct (queue st). Qed.

(** What [track] leaves waiting for delivery next is the queue it found,
    with the new event at the end. *)
Lemma track_next_batch ua lang name props now st :
  enabled st = true →
  next_batch name (track ua lang name props now st) =
    queue st ++ [Event name props now ua lang].
Proof.
  intros He. unfold track, next_batch. rewrite He.
  destruct (is_priority name); [|done].
  unfold flush. cbn [queue].
  destruct (queue st ++ [Event name props now ua lang]) eqn:Hq.
  { by destruct (queue st). }
  cbn [waiting]. by rewrite last_snoc.
Qed.

End AnalyticsFacts.

Section AnalyticsClaims.
Import Analytics AnalyticsFacts.

(** C7. When a [flush] fails to deliver, from whatever state the service
    is in by then: the events of its batch are back in the live queue, all
    of them and in their order, in front of the events tracked while the
    flush was under way; and an event tracked after the failure comes
    behind them all, in the queue or, for an event that starts a flush at
    once, in the batch that flush takes. *)
Theorem failed_flush_requeues_batch (st : service) (i : nat)
    (f : flush_call) :
  waiting st !! i = Some f →
  queue (flush_resume i true st) = f_events f ++ queue st
  ∧ (∀ ua lang name props now,
       enabled st = true →
       next_batch name (track ua lang name props now
                          (flush_resume i true st)) =
         f_events f ++ queue st ++ [Event name props now ua lang]).
Proof.
  intros Hi.
  assert (Hq : queue (flush_resume i true st) = f_events f ++ queue st).
  { unfold flush_resume. by rewrite Hi. }
  split; [done|].
  intros ua lang name props now He.
  rewrite track_next_batch.
  - by rewrite Hq, <- app_assoc.
  - unfold flush_resume. by rewrite Hi.
Qed.

(** An instance of C7: two events are tracked, the timer starts a flush,
    a third event is tracked, the flush fails, a fourth is tracked. *)
Lemma failed_flush_requeues_batch_witness :
  let e n := Event "click" n 0 "agent" "en" in
  let st := track "agent" "en" "click" "3" 0
              (flush (track "agent" "en" "click" "2" 0
                        (track "agent" "en" "click" "1" 0 initial))) in
  queue (flush_resume 0 true st) = [e "1"; e "2"; e "3"]
  ∧ queue (track "agent" "en" "click" "4" 0 (flush_resume 0 true st))
    = [e "1"; e "2"; e "3"; e "4"].
Proof.
  intros e st.
  destruct (failed_flush_requeues_batch st 0
              (FlushCall [e "1"; e "2"] []) eq_refl) as [Hq Ht].
  split; [exact Hq|].
  exact (Ht "agent" "en" "click" "4" 0 eq_refl).
Defined.

End AnalyticsClaims.

(* ===================================================================== *)
(** ** Facts about the callers of the dispatcher *)
(* ===================================================================== *)

Module ProFacts.
Import Pro.

(** A failure is handed to the statistics with the latency 0. *)
Lemma handleScheduledTask_failure_latency ws sch net responseTime o :
  o ∈ outcomes (handleScheduledTask ws sch net responseTime) →
  Stats.success o = false → Stats.responseTime o = 0%Q.
Proof.
  unfold handleScheduledTask.
  destruct (find_pro_webhook (ps_webhookId sch) ws) as [w|]; cbn.
  - destruct (decide (pw_status w ≠ "active")); cbn.
    + intros ->%list_elem_of_singleton. done.
    + destruct (Dispatcher.sendDiscordWebhook net); cbn.
      * intros ->%list_elem_of_singleton. done.
      * rewrite !elem_of_cons, elem_of_nil. by intros [->|[->|[]]].
  - intros ->%list_elem_of_singleton. done.
Qed.

Lemma testWebhook_failure_latency ws isOnline id message net responseTime o :
  o ∈ outcomes (testWebhook ws isOnline id message net responseTime).1 →
  Stats.success o = false → Stats.responseTime o = 0%Q.
Proof.
  unfold testWebhook, test_failure.
  destruct (find_pro_webhook id ws) as [w|]; cbn.
  - destruct isOnline; cbn.
    + destruct (Dispatcher.sendDiscordWebhook net); cbn.
      * destruct (decide (id ≠ EmptyString)); cbn;
          [intros ->%list_elem_of_singleton; done|by intros ?%elem_of_nil].
      * by intros ->%list_elem_of_singleton.
    + destruct (decide (id ≠ EmptyString)); cbn;
        [intros ->%list_elem_of_singleton; done|by intros ?%elem_of_nil].
  - destruct (decide (id ≠ EmptyString)); cbn;
      [intros ->%list_elem_of_singleton; done|by intros ?%elem_of_nil].
Qed.

(** In this application a scheduled task whose webhook is missing or not
    active sends nothing and reports a failure to the statistics. *)
Lemma handleScheduledTask_without_webhook ws sch net responseTime :
  (find_pro_webhook (ps_webhookId sch) ws = None
   ∨ ∃ w, find_pro_webhook (ps_webhookId sch) ws = Some w
          ∧ pw_status w ≠ "active") →
  List.filter is_fetch (handleScheduledTask ws sch net responseTime) = []
  ∧ outcomes (handleScheduledTask ws sch net responseTime)
    = [Stats.Outcome false 0%Q].
Proof.
  unfold handleScheduledTask. intros [->|(w & -> & Hw)]; [done|].
  by rewrite decide_True.
Qed.

(** What a failed scheduled task hands to the statistics: one outcome,
    [{ success: false, responseTime: 0 }]. *)
Lemma handleScheduledTask_failure_outcomes ws sch net responseTime :
  (find_pro_webhook (ps_webhookId sch) ws = None
   ∨ (∃ w, find_pro_webhook (ps_webhookId sch) ws = Some w
           ∧ pw_status w ≠ "active")
   ∨ (∃ error, Dispatcher.sendDiscordWebhook net = inl error)) →
  outcomes (handleScheduledTask ws sch net responseTime)
  = [Stats.Outcome false 0%Q].
Proof.
  unfold handleScheduledTask.
  intros [->|[(w & -> & Hw)|(error & He)]]; [done|by rewrite decide_True|].
  destruct (find_pro_webhook (ps_webhookId sch) ws) as [w|]; [|done].
  destruct (decide (pw_status w ≠ "active")); [done|].
  by rewrite He.
Qed.

(** What a failed test hands to the statistics, for a webhook id that is
    not empty. *)
Lemma testWebhook_failure_outcomes ws isOnline id message net responseTime :
  id ≠ EmptyString →
  (find_pro_webhook id ws = None ∨ isOnline = false
   ∨ (∃ error, Dispatcher.sendDiscordWebhook net = inl error)) →
  outcomes (testWebhook ws isOnline id message net responseTime).1
  = [Stats.Outcome false 0%Q].
Proof.
  intros Hid Hfail. unfold testWebhook, test_failure.
  destruct (find_pro_webhook id ws) as [w|];
    [|by rewrite (decide_True _ _ Hid)].
  destruct isOnline; [|by rewrite (decide_True _ _ Hid)]. cbn [negb].
  destruct Hfail as [?|[?|(error & He)]]; [done..|].
  rewrite He, (decide_True _ _ Hid). done.
Qed.

(** What a successful scheduled task and a successful test hand to the
    statistics: the time measured, once for the schedule and once for the
    webhook, or once for the webhook. *)
Lemma success_outcomes ws sch isOnline id message net responseTime response :
  Dispatcher.sendDiscordWebhook net = inr response →
  (∀ w, find_pro_webhook (ps_webhookId sch) ws = Some w →
        pw_status w = "active" →
        outcomes (handleScheduledTask ws sch net responseTime)
        = [Stats.Outcome true responseTime;
           Stats.Outcome true responseTime])
  ∧ (∀ w, find_pro_webhook id ws = Some w → isOnline = true →
          outcomes (testWebhook ws isOnline id message net responseTime).1
          = [Stats.Outcome true responseTime]).
Proof.
  intros Hr. split.
  - intros w Hw Hact. unfold handleScheduledTask. rewrite Hw.
    destruct (decide (pw_status w ≠ "active")); [done|]. by rewrite Hr.
  - intros w Hw ->. unfold testWebhook. rewrite Hw. cbn [negb].
    by rewrite Hr.
Qed.

End ProFacts.

(* ===================================================================== *)
(** ** Facts about the rolling statistics *)
(* ===================================================================== *)

Module StatsFacts.
Import Stats.

Lemma record_all_snoc os now o s :
  record_all (os ++ [(now, o)]) s = record now o (record_all os s).
Proof. unfold record_all. by rewrite foldl_app. Qed.

Lemma total_latency_snoc os now o :
  (total_latency (os ++ [(now, o)]) == total_latency os + responseTime o)%Q.
Proof.
  unfold total_latency. induction os as [|[n' o'] os IH]; cbn.
  - ring.
  - rewrite IH. ring.
Qed.

Lemma record_all_count os s :
  totalCount (record_all os s) = totalCount s + Z.of_nat (length os).
Proof.
  induction os as [|[now o] os IH] using rev_ind; [cbn; lia|].
  rewrite record_all_snoc, length_app. cbn. rewrite IH. lia.
Qed.

(** The average times the count is the sum of the latencies: the
    incremental update keeps the arithmetic mean. *)
Lemma record_all_mean os :
  (averageResponseTimeMs (record_all os empty)
   * inject_Z (Z.of_nat (length os)) == total_latency os)%Q.
Proof.
  induction os as [|[now o] os IH] using rev_ind; [reflexivity|].
  rewrite record_all_snoc, total_latency_snoc, length_app.
  cbn [record averageResponseTimeMs length].
  rewrite record_all_count. cbn [empty totalCount]. rewrite Z.add_0_l.
  replace (Z.of_nat (length os + 1)) with (Z.of_nat (length os) + 1) by lia.
  rewrite <- IH. rewrite inject_Z_plus.
  set (n := inject_Z (Z.of_nat (length os))).
  assert (Hn : (0 <= n)%Q).
  { unfold n. change 0%Q with (inject_Z 0). rewrite <- Zle_Qle. lia. }
  assert (Hn1 : (~ n + inject_Z 1 == 0)%Q).
  { intros H. change (inject_Z 1) with 1%Q in H.
    assert (0 < n + 1)%Q as Hlt
      by (apply Qlt_le_trans with (0 + 1)%Q;
          [reflexivity|apply Qplus_le_l; exact Hn]).
    rewrite H in Hlt. by apply Qlt_irrefl in Hlt. }
  field. exact Hn1.
Qed.

End StatsFacts.

Section StatsClaims.
Import Stats StatsFacts.

(** C8. The statistics move the average by
    [(latency - avg) / totalCount] at every record.  A failure counts
    with the latency 0: what [handleScheduledTask] and [testWebhook] hand
    to the statistics when the send fails (no webhook, a webhook that is
    not active, no connection, or an error from [sendDiscordWebhook]) is
    the one outcome [{ success: false, responseTime: 0 }], and when it
    succeeds the time they measured.  So the average of the records made
    so far is their arithmetic mean (average times count is the sum of
    the latencies), a recorded failure pulls it towards 0, and recording
    the successful latencies 100, 200 and 300 from empty statistics gives
    the averages 100, 150 and 200. *)
Theorem rolling_average_is_mean :
  (∀ now o s,
     averageResponseTimeMs (record now o s) =
       (averageResponseTimeMs s
        + (responseTime o - averageResponseTimeMs s)
          / inject_Z (totalCount s + 1))%Q
     ∧ totalCount (record now o s) = totalCount s + 1)
  ∧ (∀ ws sch net time,
       (Pro.find_pro_webhook (Pro.ps_webhookId sch) ws = None
        ∨ (∃ w, Pro.find_pro_webhook (Pro.ps_webhookId sch) ws = Some w
                ∧ Pro.pw_status w ≠ "active")
        ∨ (∃ error, Dispatcher.sendDiscordWebhook net = inl error)) →
       Pro.outcomes (Pro.handleScheduledTask ws sch net time)
       = [Outcome false 0%Q])
  ∧ (∀ ws isOnline id message net time,
       id ≠ EmptyString →
       (Pro.find_pro_webhook id ws = None ∨ isOnline = false
        ∨ (∃ error, Dispatcher.sendDiscordWebhook net = inl error)) →
       Pro.outcomes (Pro.testWebhook ws isOnline id message net time).1
       = [Outcome false 0%Q])
  ∧ (∀ ws sch isOnline id message net time response,
       Dispatcher.sendDiscordWebhook net = inr response →
       (∀ w, Pro.find_pro_webhook (Pro.ps_webhookId sch) ws = Some w →
             Pro.pw_status w = "active" →
             Pro.outcomes (Pro.handleScheduledTask ws sch net time)
             = [Outcome true time; Outcome true time])
       ∧ (∀ w, Pro.find_pro_webhook id ws = Some w → isOnline = true →
               Pro.outcomes
                 (Pro.testWebhook ws isOnline id message net time).1
               = [Outcome true time]))
  ∧ (∀ now s,
       averageResponseTimeMs (record now (Outcome false 0%Q) s) =
         (averageResponseTimeMs s
          + (0 - averageResponseTimeMs s) / inject_Z (totalCount s + 1))%Q
       ∧ failureCount (record now (Outcome false 0%Q) s)
         = failureCount s + 1
       ∧ successCount (record now (Outcome false 0%Q) s) = successCount s)
  ∧ (∀ os,
       (averageResponseTimeMs (record_all os empty)
        * inject_Z (Z.of_nat (length os)) == total_latency os)%Q)
  ∧ (∀ t1 t2 t3,
       Forall2 Qeq
         (averages [(t1, Outcome true 100%Q); (t2, Outcome true 200%Q);
                    (t3, Outcome true 300%Q)] empty)
         [100%Q; 150%Q; 200%Q]
       ∧ (averageResponseTimeMs
            (record_all [(t1, Outcome true 100%Q); (t2, Outcome true 200%Q);
                         (t3, Outcome true 300%Q)] empty) == 200)%Q).
Proof.
  split; [done|].
  split; [apply ProFacts.handleScheduledTask_failure_outcomes|].
  split; [apply ProFacts.testWebhook_failure_outcomes|].
  split; [intros; by eapply ProFacts.success_outcomes|].
  split; [done|].
  split; [apply record_all_mean|].
  intros t1 t2 t3. split; [|reflexivity].
  repeat constructor.
Qed.

End StatsClaims.

(* ===================================================================== *)
(** * Further properties of the code *)
(* ===================================================================== *)

(* ===================================================================== *)
(** ** The rate limiter's remaining requests *)
(* ===================================================================== *)

Section RemainingRequests.
Import RateLimiter RateLimiterFacts.

Lemma getRemainingRequests_stored id limit now (s : store) :
  is_Some (s !! id) →
  getRemainingRequests id limit now s =
    Z.max 0 (limit - Z.of_nat (length (recent (now - 60000) (stored id s)))).
Proof. intros [l Hl]. unfold getRemainingRequests, stored. by rewrite Hl. Qed.

(** X1. [getRemainingRequests] and [checkLimit] with the window of 60 s
    agree: at the same instant, a request remains exactly when a call
    would be allowed.  For a limit that is not negative the number of
    remaining requests lies between 0 and the limit. *)
Theorem remaining_iff_allowed (identifier : string) (limit now : Z)
    (s : store) :
  (0 < getRemainingRequests identifier limit now s
   ↔ (checkLimit identifier limit 60000 now s).1 = true)
  ∧ (0 ≤ limit →
     0 ≤ getRemainingRequests identifier limit now s ≤ limit).
Proof.
  rewrite checkLimit_stored. unfold getRemainingRequests.
  destruct (s !! identifier) as [l|] eqn:Hl.
  - assert (Hst : stored identifier s = l) by (unfold stored; by rewrite Hl).
    rewrite Hst.
    destruct (Z.ltb_spec (Z.of_nat (length (recent (now - 60000) l))) limit);
      cbn [fst]; (split; [split; [done || lia|done || lia]|lia]).
  - assert (Hst : stored identifier s = []) by (unfold stored; by rewrite Hl).
    rewrite Hst. cbn [recent filter list_filter length].
    destruct (Z.ltb_spec (Z.of_nat 0) limit); cbn [fst];
      (split; [split; [done || lia|done || lia]|lia]).
Qed.

Lemma remaining_iff_allowed_witness :
  0 ≤ getRemainingRequests "hook" 2 500 (run 2 60000 [("hook", 0)] ∅).2 ≤ 2.
Proof.
  by apply (remaining_iff_allowed "hook" 2 500
              (run 2 60000 [("hook", 0)] ∅).2).
Defined.

(** X2. An allowed call (with the window of 60 s) uses up exactly one of
    the remaining requests. *)
Theorem allowed_call_uses_one (identifier : string) (limit now : Z)
    (s : store) :
  (checkLimit identifier limit 60000 now s).1 = true →
  getRemainingRequests identifier limit now
    (checkLimit identifier limit 60000 now s).2 =
  getRemainingRequests identifier limit now s - 1.
Proof.
  rewrite checkLimit_stored.
  destruct (Z.ltb_spec
              (Z.of_nat (length (recent (now - 60000) (stored identifier s))))
              limit) as [Hlt|Hge]; cbn [fst snd]; [intros _|done].
  rewrite getRemainingRequests_stored by (by rewrite lookup_insert_eq).
  rewrite stored_insert.
  rewrite recent_all.
  2:{ apply Forall_app. split; [apply recent_Forall|].
      repeat constructor. lia. }
  rewrite length_app. cbn [length].
  unfold getRemainingRequests.
  destruct (s !! identifier) as [l|] eqn:Hl.
  - assert (Hst : stored identifier s = l) by (unfold stored; by rewrite Hl).
    rewrite Hst in *. lia.
  - assert (Hst : stored identifier s = []) by (unfold stored; by rewrite Hl).
    rewrite Hst in *. cbn in *. lia.
Qed.

Lemma allowed_call_uses_one_witness :
  getRemainingRequests "hook" 2 500
    (checkLimit "hook" 2 60000 500 (run 2 60000 [("hook", 0)] ∅).2).2 =
  getRemainingRequests "hook" 2 500 (run 2 60000 [("hook", 0)] ∅).2 - 1.
Proof.
  apply (allowed_call_uses_one "hook" 2 500
           (run 2 60000 [("hook", 0)] ∅).2).
  vm_compute. reflexivity.
Defined.

End RemainingRequests.

(* ===================================================================== *)
(** ** The dashboard's activity log *)
(* ===================================================================== *)

Section ActivityLog.
Import Dash DashUtil.

Lemma last_drop {A} (l : list A) k :
  (k < length l)%nat → last (drop k l) = last l.
Proof.
  revert k. induction l as [|x l IH]; intros k Hk; [cbn in Hk; lia|].
  destruct k as [|k]; [done|]. cbn [drop] in *. cbn [length] in Hk.
  rewrite IH by lia. destruct l; [cbn in Hk; lia|done].
Qed.

Lemma addActivity_log (type message : string) (now : Z) (st : state) :
  (length (activities (addActivity type message now st)) ≤ 100)%nat
  ∧ last (activities (addActivity type message now st))
    = Some (Activity type message now)
  ∧ activities (addActivity type message now st)
    `suffix_of` activities st ++ [Activity type message now].
Proof.
  unfold addActivity, set_activities. cbn [activities].
  set (acts := activities st ++ [Activity type message now]).
  assert (Hlast : last acts = Some (Activity type message now))
    by apply last_snoc.
  destruct (Nat.ltb_spec 100 (length acts)) as [Hgt|Hle].
  - split; [rewrite length_drop; lia|]. split.
    + rewrite last_drop by lia. done.
    + apply suffix_drop.
  - done.
Qed.

(** X3. After [addActivity] the log holds at most 100 activities, the new
    one is the last of them, and the log is the end of the old log with
    the new activity appended: only the oldest entries are dropped. *)
Theorem addActivity_keeps_last_100 (type message : string) (now : Z)
    (st : state) :
  (length (activities (addActivity type message now st)) ≤ 100)%nat
  ∧ last (activities (addActivity type message now st))
    = Some (Activity type message now)
  ∧ activities (addActivity type message now st)
    `suffix_of` activities st ++ [Activity type message now].
Proof. apply addActivity_log. Qed.

(** X4. The dashboard's list of recent activity shows at most five
    entries, and right after [addActivity] the activity just added comes
    first. *)
Theorem recent_activity_newest_first (type message : string) (now : Z)
    (st : state) :
  (length (recentActivities st) ≤ 5)%nat
  ∧ head (recentActivities (addActivity type message now st))
    = Some (Activity type message now).
Proof.
  split.
  - unfold recentActivities. rewrite length_reverse, length_drop. lia.
  - unfold recentActivities. rewrite head_reverse.
    destruct (addActivity_log type message now st) as (_ & Hlast & _).
    destruct (activities (addActivity type message now st)) as [|a l] eqn:Ha;
      [done|].
    rewrite last_drop; [done|]. cbn [length]. lia.
Qed.

End ActivityLog.

(* ===================================================================== *)
(** ** The dashboard's utilities *)
(* ===================================================================== *)

Section Utilities.
Import DashUtil.

Lemma escapeHtml_cons x rest :
  escapeHtml (String x rest) = entity x +:+ escapeHtml rest.
Proof.
  unfold escapeHtml, entity. cbn [replace_all].
  destruct (Ascii.eqb_spec x amp_char) as [->|_]; [reflexivity|].
  cbn [replace_all].
  destruct (Ascii.eqb_spec x lt_char) as [->|_]; [reflexivity|].
  cbn [replace_all].
  destruct (Ascii.eqb_spec x gt_char) as [->|_]; [reflexivity|].
  cbn [replace_all].
  destruct (Ascii.eqb_spec x quot_char) as [->|_]; [reflexivity|].
  cbn [replace_all].
  destruct (Ascii.eqb_spec x apos_char) as [->|_]; reflexivity.
Qed.

(** The five passes come to replacing each character by its entity. *)
Lemma escapeHtml_entities s : escapeHtml s = entities s.
Proof.
  induction s as [|x rest IH]; [reflexivity|].
  rewrite escapeHtml_cons. cbn [entities]. by rewrite IH.
Qed.

Lemma chars_app a b : chars (a +:+ b) = chars a ++ chars b.
Proof. induction a as [|x a IH]; simpl; [done|]. by rewrite IH. Qed.

Lemma entity_no_special x y : y ∈ chars (entity x) → ¬ special y.
Proof.
  unfold entity, special.
  destruct (Ascii.eqb_spec x amp_char) as [->|_];
    [|destruct (Ascii.eqb_spec x lt_char) as [->|Hlt];
      [|destruct (Ascii.eqb_spec x gt_char) as [->|Hgt];
        [|destruct (Ascii.eqb_spec x quot_char) as [->|Hquot];
          [|destruct (Ascii.eqb_spec x apos_char) as [->|Hapos]]]]];
    cbn [chars]; rewrite ?elem_of_cons, elem_of_nil;
    intros Hy Hs; repeat (destruct Hy as [->|Hy]; [|]); try done;
    destruct Hs as [Hs|[Hs|[Hs|Hs]]]; try congruence;
    vm_compute in Hs; discriminate.
Qed.

Ltac norm_chars :=
  unfold amp_char, lt_char, gt_char, quot_char, apos_char in *;
  let a := eval vm_compute in (Ascii.ascii_of_nat 38) in
  let l := eval vm_compute in (Ascii.ascii_of_nat 60) in
  let g := eval vm_compute in (Ascii.ascii_of_nat 62) in
  let q := eval vm_compute in (Ascii.ascii_of_nat 34) in
  let p := eval vm_compute in (Ascii.ascii_of_nat 39) in
  change (Ascii.ascii_of_nat 38) with a in *;
  change (Ascii.ascii_of_nat 60) with l in *;
  change (Ascii.ascii_of_nat 62) with g in *;
  change (Ascii.ascii_of_nat 34) with q in *;
  change (Ascii.ascii_of_nat 39) with p in *.

Ltac classify x :=
  destruct (Ascii.eqb_spec x amp_char) as [->|?];
  [|destruct (Ascii.eqb_spec x lt_char) as [->|?];
    [|destruct (Ascii.eqb_spec x gt_char) as [->|?];
      [|destruct (Ascii.eqb_spec x quot_char) as [->|?];
        [|destruct (Ascii.eqb_spec x apos_char) as [->|?]]]]].

(** Two characters with the same entity in front of whatever follows are
    the same character, and what follows is the same. *)
Lemma entity_cancel x y r1 r2 :
  entity x +:+ r1 = entity y +:+ r2 → x = y ∧ r1 = r2.
Proof.
  unfold entity. classify x; classify y; norm_chars; simpl; intros H;
    try discriminate; try (injection H as H; by subst);
    try (injection H; intros; subst; congruence).
Qed.

Lemma entities_inj s1 : ∀ s2, entities s1 = entities s2 → s1 = s2.
Proof.
  induction s1 as [|x s1 IH]; intros [|y s2] H; [done| | |].
  - cbn [entities] in H. exfalso. revert H. unfold entity.
    classify y; norm_chars; simpl; discriminate.
  - cbn [entities] in H. exfalso. revert H. unfold entity.
    classify x; norm_chars; simpl; discriminate.
  - cbn [entities] in H. apply entity_cancel in H as [-> H].
    f_equal. by apply IH.
Qed.

Lemma entities_safe s :
  (∀ x, x ∈ chars s → ¬ special x ∧ x ≠ amp_char) → entities s = s.
Proof.
  induction s as [|x s IH]; intros Hs; [done|].
  cbn [entities]. rewrite IH.
  2:{ intros y Hy. apply Hs. cbn [chars]. by right. }
  destruct (Hs x) as [Hsp Hamp]; [cbn [chars]; by left|].
  unfold special in Hsp. unfold entity.
  classify x; try done; try (exfalso; apply Hsp; by auto).
Qed.

(** X5. The result of [escapeHtml] holds none of the characters
    [<], [>], double quote and apostrophe; and a string without these
    and without [&] is returned as it is. *)
Theorem escapeHtml_no_special (unsafe : string) :
  (∀ y, y ∈ chars (escapeHtml unsafe) → ¬ special y)
  ∧ ((∀ x, x ∈ chars unsafe → ¬ special x ∧ x ≠ amp_char) →
     escapeHtml unsafe = unsafe).
Proof.
  rewrite escapeHtml_entities. split; [|apply entities_safe].
  induction unsafe as [|x rest IH]; intros y Hy; [by apply elem_of_nil in Hy|].
  cbn [entities] in Hy. rewrite chars_app in Hy.
  apply elem_of_app in Hy as [Hy|Hy]; [by eapply entity_no_special|].
  by apply IH.
Qed.

Lemma escapeHtml_no_special_witness : escapeHtml "General" = "General".
Proof.
  apply (escapeHtml_no_special "General").
  intros x Hx. cbn [chars] in Hx. unfold special. norm_chars.
  rewrite !elem_of_cons, elem_of_nil in Hx.
  repeat (destruct Hx as [->|Hx]; [repeat split; try discriminate;
                                     intros [?|[?|[?|?]]]; discriminate|]).
  done.
Defined.

(** X6. [escapeHtml] loses nothing: two strings with the same result are
    the same string. *)
Theorem escapeHtml_injective (s1 s2 : string) :
  escapeHtml s1 = escapeHtml s2 → s1 = s2.
Proof. rewrite !escapeHtml_entities. apply entities_inj. Qed.

Lemma escapeHtml_injective_witness : "a<b" = "a<b".
Proof. apply (escapeHtml_injective "a<b" "a<b"). reflexivity. Defined.

(** X7. [formatTime] by the age of the timestamp: under a minute (or in
    the future) it says "Just now"; under an hour, the whole minutes, 1
    to 59; under a day, the whole hours, 1 to 23; under a week, the whole
    days, 1 to 6; from a week on it prints the date. *)
Theorem formatTime_by_age (toLocaleDateString : option Z → string)
    (date now : Z) :
  (now - date < 60000 →
   formatTime toLocaleDateString (Some date) now = "Just now")
  ∧ (60000 ≤ now - date < 3600000 →
     formatTime toLocaleDateString (Some date) now
       = pretty ((now - date) / 60000) +:+ "m ago"
     ∧ 1 ≤ (now - date) / 60000 ≤ 59)
  ∧ (3600000 ≤ now - date < 86400000 →
     formatTime toLocaleDateString (Some date) now
       = pretty ((now - date) / 3600000) +:+ "h ago"
     ∧ 1 ≤ (now - date) / 3600000 ≤ 23)
  ∧ (86400000 ≤ now - date < 604800000 →
     formatTime toLocaleDateString (Some date) now
       = pretty ((now - date) / 86400000) +:+ "d ago"
     ∧ 1 ≤ (now - date) / 86400000 ≤ 6)
  ∧ (604800000 ≤ now - date →
     formatTime toLocaleDateString (Some date) now
       = toLocaleDateString (Some date)).
Proof.
  unfold formatTime. cbn zeta.
  split; [|split; [|split; [|split]]]; intros Hage;
    repeat match goal with
           | |- context [?a <? ?b] => destruct (Z.ltb_spec a b)
           end; try done; try (exfalso; zdiv); split; try done; zdiv.
Qed.

Lemma formatTime_by_age_witness :
  formatTime (λ _, "1/1/1970") (Some 0) 7200000 = "2h ago".
Proof.
  destruct (formatTime_by_age (λ _, "1/1/1970") 0 7200000)
    as (_ & _ & Hh & _).
  destruct Hh as [Hh _]; [lia|]. exact Hh.
Defined.

End Utilities.

(* ===================================================================== *)
(** ** The URL checks *)
(* ===================================================================== *)

Section UrlChecks.
Import DashUtil WebhookSchema.

Lemma strip_prefix_Some p : ∀ s rest,
  strip_prefix p s = Some rest →
  s = p +:+ rest ∧ String.prefix p s = true.
Proof.
  induction p as [|a p IH]; intros s rest H.
  - cbn in H. injection H as ->. split; [done|]. by destruct rest.
  - destruct s as [|b s]; [done|]. cbn [strip_prefix] in H.
    destruct (Ascii.eqb_spec a b) as [->|Hne]; [|done].
    destruct (IH s rest H) as [-> Hp]. split; [done|].
    cbn [String.prefix]. by destruct (Ascii.ascii_dec b b).
Qed.

Lemma is_digit_token x : is_digit x = true → is_token_char x = true.
Proof.
  unfold is_token_char. intros ->. rewrite orb_true_r. done.
Qed.

Lemma skip_digits_chars s x :
  x ∈ chars s → is_digit x = true ∨ x ∈ chars (skip_digits s).
Proof.
  induction s as [|y s IH]; intros Hx; [by apply elem_of_nil in Hx|].
  cbn [skip_digits]. destruct (is_digit y) eqn:Hy; [|by right].
  cbn [chars] in Hx. apply elem_of_cons in Hx as [->|Hx]; [by left|].
  by apply IH.
Qed.

Lemma all_token_chars_elem s x :
  all_token_chars s = true → x ∈ chars s → is_token_char x = true.
Proof.
  induction s as [|y s IH]; intros Hall Hx; [by apply elem_of_nil in Hx|].
  cbn [all_token_chars] in Hall. apply andb_true_iff in Hall as [Hy Hall].
  cbn [chars] in Hx. apply elem_of_cons in Hx as [->|Hx]; [done|].
  by apply IH.
Qed.

(** X8. Every URL the validator of the webhook model accepts is accepted
    by the dashboard's [isValidWebhookUrl] as well; and after the prefix
    such a URL holds nothing but letters, digits, underscores, hyphens and
    slashes (no query string, in particular). *)
Theorem validator_accepts_less (v : string) :
  validator v = true →
  isValidWebhookUrl v = true
  ∧ ∃ rest, v = webhook_prefix +:+ rest
            ∧ ∀ x, x ∈ chars rest →
                   is_token_char x = true ∨ x = Ascii.ascii_of_nat 47.
Proof.
  unfold validator, isValidWebhookUrl.
  destruct (strip_prefix webhook_prefix v) as [rest|] eqn:Hp; [|done].
  apply strip_prefix_Some in Hp as [-> Hpre]. intros Hv.
  split; [done|]. exists rest. split; [done|].
  destruct rest as [|d rest']; [done|].
  apply andb_true_iff in Hv as [_ Hv].
  intros x Hx. apply skip_digits_chars in Hx as [Hx|Hx];
    [left; by apply is_digit_token|].
  destruct (skip_digits (String d rest')) as [|slash token]; [done|].
  apply andb_true_iff in Hv as [Hslash Hv].
  apply Ascii.eqb_eq in Hslash. subst slash.
  destruct token as [|t token]; [done|].
  cbn [chars] in Hx. apply elem_of_cons in Hx as [->|Hx]; [by right|].
  left. by eapply all_token_chars_elem.
Qed.

Lemma validator_accepts_less_witness :
  isValidWebhookUrl "https://discord.com/api/webhooks/12345/aB-c_9" = true.
Proof.
  apply (validator_accepts_less
           "https://discord.com/api/webhooks/12345/aB-c_9").
  vm_compute. reflexivity.
Defined.

End UrlChecks.

(* ===================================================================== *)
(** ** The dashboard's success rate *)
(* ===================================================================== *)

Section SuccessRate.
Import Dash DashUtil.

Lemma count_type_nonneg type acts : 0 ≤ count_type type acts.
Proof. unfold count_type. lia. Qed.

(** X9. The success rate of the analytics view is never above 100; it is
    100 as long as no sent message is in the log, whatever has failed; and
    with sent messages in the log it is negative exactly when the log
    holds more failed messages than sent ones. *)
Theorem successRate_range (st : state) :
  (successRate st <= 100)%Q
  ∧ (totalMessages st = 0 → successRate st = 100%Q)
  ∧ (0 < totalMessages st →
     ((successRate st < 0)%Q
      ↔ totalMessages st
        < count_type "message_failed" (activities st))).
Proof.
  unfold successRate. cbn zeta.
  pose proof (count_type_nonneg "message_failed" (activities st)) as Hf.
  set (f := count_type "message_failed" (activities st)) in *.
  set (t := totalMessages st).
  destruct (Z.ltb_spec 0 t) as [Ht|Ht].
  - assert (Heq : (inject_Z (t - f) / inject_Z t * 100
                   == inject_Z (100 * (t - f)) / inject_Z t)%Q).
    { rewrite inject_Z_mult. unfold Qdiv. ring. }
    assert (Htq : (0 < inject_Z t)%Q)
      by (change 0%Q with (inject_Z 0); by rewrite <- Zlt_Qlt).
    split; [|split; [lia|intros _]].
    + rewrite Heq. apply Qle_shift_div_r; [done|].
      change 100%Q with (inject_Z 100). rewrite <- inject_Z_mult.
      rewrite <- Zle_Qle. lia.
    + rewrite Heq. split.
      * intros Hneg. apply Z.nle_gt. intros Hle.
        apply (Qlt_not_le _ _ Hneg). apply Qle_shift_div_l; [done|].
        rewrite Qmult_0_l. change 0%Q with (inject_Z 0).
        rewrite <- Zle_Qle. lia.
      * intros Hlt. apply Qlt_shift_div_r; [done|].
        rewrite Qmult_0_l. change 0%Q with (inject_Z 0).
        rewrite <- Zlt_Qlt. lia.
  - split; [done|]. split; [done|lia].
Qed.

Lemma successRate_range_witness :
  let st := addActivity "message_failed" "y" 2
              (addActivity "message_failed" "x" 1
                 (addActivity "message_sent" "w" 0 (example_state "daily")))
  in (successRate st < 0)%Q.
Proof.
  intros st. destruct (successRate_range st) as (_ & _ & Hneg).
  apply Hneg; vm_compute; reflexivity.
Defined.

End SuccessRate.

(* ===================================================================== *)
(** ** More about the polling scheduler *)
(* ===================================================================== *)

Section SchedulerMore.
Import Dash DashFacts.



Lemma starts_schedule now st q :
  q ∈ (starts now st).*1 →
  ∃ s, p_schedule q ∈ schedules st ∧ heap st !! p_schedule q = Some s
       ∧ due now s = true.
Proof.
  intros Hq. apply list_elem_of_fmap in Hq as ([q' rq] & -> & Hq).
  unfold starts, starts_of in Hq.
  apply list_elem_of_omap in Hq as (l & Hl & Hq).
  destruct (heap st !! l) as [s|] eqn:Hs; cbn in Hq; [|done].
  destruct (due now s) eqn:Hdue; [|done].
  destruct (find_webhook (s_webhookId s) (webhooks st)); cbn in Hq; [|done].
  injection Hq as <- <-. cbn [fst p_schedule]. by exists s.
Qed.



Lemma find_ext {A} (f g : A → bool) (l : list A) :
  (∀ x, f x = g x) → List.find f l = List.find g l.
Proof.
  intros H. induction l as [|x l IH]; [done|]. cbn. rewrite H.
  destruct (g x); [done|apply IH].
Qed.

Lemma set_active_involutive s :
  set_active (negb (s_active (set_active (negb (s_active s)) s)))
             (set_active (negb (s_active s)) s) = s.
Proof. destruct s as [? ? ? ? ? a]. cbn. by rewrite negb_involutive. Qed.

(** X11. Pausing and resuming: [toggleSchedule] twice gives the state
    back as it was; and the schedule a toggle has paused is handed to
    [executeSchedule] by no round of the checker. *)
Theorem toggleSchedule_twice (id : string) (st : state) :
  toggleSchedule id (toggleSchedule id st) = st
  ∧ (∀ l s now q,
       List.find
         (λ l, match heap st !! l with
               | Some s => bool_decide (s_id s = id)
               | None => false
               end) (schedules st) = Some l →
       heap st !! l = Some s → s_active s = true →
       q ∈ (starts now (toggleSchedule id st)).*1 → p_schedule q ≠ l).
Proof.
  split.
  - unfold toggleSchedule at 2.
    destruct (List.find _ (schedules st)) as [l|] eqn:Hfind.
    + unfold toggleSchedule. cbn [set_heap heap schedules].
      rewrite (find_ext _
                 (λ l, match heap st !! l with
                       | Some s => bool_decide (s_id s = id)
                       | None => false
                       end)).
      2:{ intros l0. rewrite lookup_alter.
          destruct (decide (l = l0)) as [->|Hne]; [|done].
          by destruct (heap st !! l0) as [[]|]. }
      rewrite Hfind. cbn [set_heap heap].
      rewrite alter_alter_eq.
      rewrite alter_id; [by destruct st|].
      intros s _. cbn. apply set_active_involutive.
    + unfold toggleSchedule. by rewrite Hfind.
  - intros l s now q Hfind Hs Hact Hq Heq.
    unfold toggleSchedule in Hq. rewrite Hfind in Hq.
    apply starts_schedule in Hq as (s0 & _ & Hs0 & Hdue).
    cbn [set_heap heap] in Hs0. rewrite Heq, lookup_alter_eq, Hs in Hs0.
    cbn in Hs0. injection Hs0 as <-. unfold due in Hdue. cbn in Hdue.
    by rewrite Hact in Hdue.
Qed.

Lemma toggleSchedule_twice_witness :
  Forall (λ q, p_schedule q ≠ 0%nat)
    (starts 60000 (toggleSchedule "s1" (example_state "daily"))).*1.
Proof.
  apply Forall_forall. intros q.
  destruct (toggleSchedule_twice "s1" (example_state "daily")) as [_ H].
  apply (H 0%nat (example_schedule "daily") 60000 q);
    vm_compute; reflexivity.
Defined.



Lemma filter_sublist {A} (f : A → bool) (l : list A) :
  List.filter f l `sublist_of` l.
Proof.
  induction l as [|x l IH]; [done|]. cbn.
  destruct (f x); by constructor.
Qed.

Lemma settle_schedules tza i r now st :
  schedules (settle tza i r now st) `sublist_of` schedules st.
Proof.
  unfold settle. destruct (inflight st !! i) as [p|]; [|done].
  unfold executeSchedule_resume.
  destruct r as [|status]; [done|].
  destruct (response_ok status); [|done].
  unfold handle_repetition.
  change (heap (addActivity _ _ _ (set_inflight _ st))) with (heap st).
  destruct (heap st !! p_schedule p) as [s|]; [|done].
  destruct (decide (s_repeat s ≠ "once")).
  - by destruct (calculateNextSchedule tza s) as [[t|]|].
  - cbn [set_schedules schedules]. apply filter_sublist.
Qed.

(** X13. None of the checker's rounds, the responses that come in, the
    pausing and the deletions adds a schedule to the list: what is left
    after any sequence of them is a sublist of what was there, so a
    schedule that was deleted is not put back by a response that arrives
    later. *)
Theorem schedules_never_grow (tza : JSDate.zone) (es : list action) (st : state) :
  schedules (run_actions tza es st) `sublist_of` schedules st.
Proof.
  revert st. induction es as [|e es IH]; intros st; [done|].
  unfold run_actions in *. cbn [foldl]. etrans; [apply IH|].
  destruct e as [now|i r now|id|id|id now]; cbn [step].
  - by rewrite tick_eq.
  - apply settle_schedules.
  - unfold toggleSchedule. by destruct (List.find _ _).
  - apply filter_sublist.
  - unfold deleteWebhook. by destruct (find_webhook _ _).
Qed.

End SchedulerMore.

(* ===================================================================== *)
(** ** The manager's operations *)
(* ===================================================================== *)

Section ManagerOperations.
Import Pro ProState.

(** X14. [sendMessage] sends a request exactly when the webhook exists,
    is active and the application is online, and it returns without an
    error exactly when, on top of that, [sendDiscordWebhook] returned;
    [testWebhook] sends whenever the webhook exists and the application is
    online, whether the webhook is active or not. *)
Theorem sendMessage_sends_iff (ws : list pro_webhook) (isOnline : bool)
    (webhookId data : string) (net : Dispatcher.network) (time : Q) :
  (sends (sendMessage ws isOnline webhookId data net time).1 = true
   ↔ ∃ w, find_pro_webhook webhookId ws = Some w
          ∧ pw_status w = "active" ∧ isOnline = true)
  ∧ ((sendMessage ws isOnline webhookId data net time).2 = None
     ↔ ∃ w response, find_pro_webhook webhookId ws = Some w
          ∧ pw_status w = "active" ∧ isOnline = true
          ∧ Dispatcher.sendDiscordWebhook net = inr response)
  ∧ (sends (testWebhook ws isOnline webhookId data net time).1 = true
     ↔ ∃ w, find_pro_webhook webhookId ws = Some w ∧ isOnline = true).
Proof.
  unfold sendMessage, testWebhook, send_failure, test_failure, sends.
  destruct (find_pro_webhook webhookId ws) as [w|].
  2:{ repeat split; try (intros (? & ? & ?); done);
        try (intros (? & ? & ? & ?); done);
        destruct (decide (webhookId ≠ EmptyString)); cbn; done. }
  destruct isOnline; cbn [negb].
  - destruct (decide (pw_status w ≠ "active")) as [Hst|Hst].
    + split; [|split].
      * split; [destruct (decide (webhookId ≠ EmptyString)); cbn; done|].
        intros (w' & [= <-] & Hact & _). done.
      * split; [done|]. intros (w' & r & [= <-] & Hact & _). done.
      * split; [by exists w|]. intros _.
        by destruct (Dispatcher.sendDiscordWebhook net).
    + apply dec_stable in Hst.
      destruct (Dispatcher.sendDiscordWebhook net) as [e|r]; cbn.
      * split; [|split].
        -- split; [by exists w|done].
        -- split; [done|]. intros (w' & r & _ & _ & _ & [=]).
        -- split; [by exists w|done].
      * split; [|split].
        -- split; [by exists w|done].
        -- split; [by exists w, r|done].
        -- split; [by exists w|done].
  - split; [|split].
    + split; [|intros (? & ? & ? & ?); done].
      destruct (decide (pw_status w ≠ "active"));
        destruct (decide (webhookId ≠ EmptyString)); cbn; done.
    + split; [|intros (? & ? & ? & ? & ? & ?); done].
      by destruct (decide (pw_status w ≠ "active")).
    + split; [|intros (? & ? & ?); done].
      destruct (decide (webhookId ≠ EmptyString)); cbn; done.
Qed.

(** X15. [deleteWebhook] up to its [await].  If a webhook has the id,
    the first one that has it is the one taken out of the array, all the
    others staying in their order; the id leaves the selection, the
    schedules that refer to the id are removed and all others kept, the
    activities are as they were and the component is still loading; the
    call goes on with that webhook.  If no webhook has the id the call
    throws [Webhook not found], with webhooks, schedules, selection and
    activities as they were and the loading of the component ended. *)
Theorem deleteWebhook_cascades (webhookId : string) (st : app) :
  (∀ before w after,
     app_webhooks st = before ++ w :: after →
     pw_id w = webhookId →
     (∀ w', w' ∈ before → pw_id w' ≠ webhookId) →
     ∃ st',
       deleteWebhook_start webhookId st = (st', inr w)
       ∧ app_webhooks st' = before ++ after
       ∧ (∀ s, s ∈ app_schedules st'
               ↔ s ∈ app_schedules st ∧ ps_webhookId s ≠ webhookId)
       ∧ app_schedules st' `sublist_of` app_schedules st
       ∧ (∀ x, x ∈ app_selected st'
               ↔ x ∈ app_selected st ∧ x ≠ webhookId)
       ∧ app_activities st' = app_activities st
       ∧ "webhooks" ∈ app_loading st')
  ∧ ((∀ w, w ∈ app_webhooks st → pw_id w ≠ webhookId) →
     ∃ st',
       deleteWebhook_start webhookId st
       = (st', inl (Dispatcher.JsError "Error" "Webhook not found"))
       ∧ app_webhooks st' = app_webhooks st
       ∧ app_schedules st' = app_schedules st
       ∧ app_selected st' = app_selected st
       ∧ app_activities st' = app_activities st
       ∧ "webhooks" ∉ app_loading st').
Proof.
  unfold deleteWebhook_start, findIndex.
  change (app_webhooks (setLoading "webhooks" true st))
    with (app_webhooks st).
  split.
  - intros before w after Hws Hid Hbefore.
    assert (Hfind : list_find (λ w, pw_id w = webhookId) (app_webhooks st)
                    = Some (length before, w)).
    { apply list_find_Some. rewrite Hws. split; [|split; [done|]].
      - by rewrite list_lookup_middle.
      - intros j y Hj Hlt. rewrite lookup_app_l in Hj by done.
        apply Hbefore. apply list_elem_of_lookup. by exists j. }
    rewrite Hfind. eexists. split; [done|].
    cbn [app_schedules app_webhooks app_selected app_activities
         app_loading setLoading].
    split; [by rewrite Hws, delete_middle|].
    split; [|split; [|split; [|split; [done|]]]].
    + intros s. rewrite !list_elem_of_In, filter_In.
      rewrite negb_true_iff, bool_decide_eq_false. tauto.
    + clear. induction (app_schedules st) as [|x l IH]; [done|]. cbn.
      destruct (negb _); by constructor.
    + intros x. rewrite elem_of_difference, elem_of_singleton. tauto.
    + by apply elem_of_union_l, elem_of_singleton.
  - intros Hnone.
    assert (Hfind : list_find (λ w, pw_id w = webhookId) (app_webhooks st)
                    = None).
    { apply list_find_None, Forall_forall. exact Hnone. }
    rewrite Hfind. eexists. split; [done|].
    cbn [app_schedules app_webhooks app_selected app_activities
         app_loading setLoading].
    repeat (split; [done|]).
    intros [_ Hnot]%elem_of_difference. by apply Hnot, elem_of_singleton.
Qed.

(** An instance: of two webhooks with the id [w2] the first one is
    removed, the other one and the webhook before them stay. *)
Lemma deleteWebhook_cascades_witness :
  let w1 := ProWebhook "w1" "General" "u1" "active" in
  let w2 := ProWebhook "w2" "News" "u2" "active" in
  let w2' := ProWebhook "w2" "News again" "u3" "active" in
  let st := App [w1; w2; w2']
                [ProSchedule "s1" "Daily" "w1" "hello";
                 ProSchedule "s2" "Other" "w2" "hi"]
                {["w2"]} [] ∅ false in
  (deleteWebhook_start "w2" st).2 = inr w2
  ∧ app_webhooks (deleteWebhook_start "w2" st).1 = [w1; w2'].
Proof.
  intros w1 w2 w2' st.
  destruct (proj1 (deleteWebhook_cascades "w2" st) [w1] w2 [w2']
              eq_refl eq_refl) as (st' & Heq & Hws & _).
  - intros w Hw. apply list_elem_of_singleton in Hw. by subst w.
  - rewrite Heq. split; [reflexivity|exact Hws].
Defined.

(** X16. The loading flag: the global flag is set exactly when some
    component is loading; and the components are a set, not a count, so
    one [setLoading(c, false)] ends the loading of [c] however often it
    was started, and touches no other component. *)
Theorem setLoading_is_a_set (component : string) (loading : bool)
    (st : app) :
  (app_global (setLoading component loading st) = true
   ↔ app_loading (setLoading component loading st) ≠ ∅)
  ∧ (component ∉ app_loading (setLoading component false st))
  ∧ (component ∈ app_loading (setLoading component true st))
  ∧ (∀ other, other ≠ component →
       (other ∈ app_loading (setLoading component loading st)
        ↔ other ∈ app_loading st)).
Proof.
  unfold setLoading. cbn [app_global app_loading].
  split; [|split; [|split]].
  - rewrite bool_decide_eq_true. split.
    + intros Hpos Hempty. rewrite Hempty, size_empty in Hpos. lia.
    + intros Hne.
      assert (size (if loading
                    then {[component]} ∪ app_loading st
                    else app_loading st ∖ {[component]}) ≠ 0%nat); [|lia].
      apply size_non_empty_iff. by intros ?%leibniz_equiv.
  - intros [_ Hnot]%elem_of_difference.
    by apply Hnot, elem_of_singleton.
  - by apply elem_of_union_l, elem_of_singleton.
  - intros other Hne. destruct loading.
    + rewrite elem_of_union, elem_of_singleton. tauto.
    + rewrite elem_of_difference, elem_of_singleton. tauto.
Qed.

(** X17. The manager's activity log holds at most 100 entries after it is
    loaded from storage and after every [logActivity], and it ends with
    the entry just logged. *)
Theorem logActivity_keeps_last_100 (id type message : string) (now : Z)
    (stored : list pro_activity) (st : app) :
  (length (app_activities (loadActivities (Some stored) st)) ≤ 100)%nat
  ∧ app_activities (loadActivities (Some stored) st) `suffix_of` stored
  ∧ (length (app_activities (logActivity id type message now st)) ≤ 100)%nat
  ∧ last (app_activities (logActivity id type message now st))
    = Some (ProActivity id type message now)
  ∧ app_activities (logActivity id type message now st)
    `suffix_of` app_activities st ++ [ProActivity id type message now].
Proof.
  unfold loadActivities, logActivity. cbn [app_activities].
  split; [rewrite length_drop; lia|]. split; [apply suffix_drop|].
  set (acts := app_activities st ++ [ProActivity id type message now]).
  assert (Hlast : last acts = Some (ProActivity id type message now))
    by apply last_snoc.
  destruct (Nat.ltb_spec 100 (length acts)) as [Hgt|Hle].
  - split; [rewrite length_drop; lia|]. split; [|apply suffix_drop].
    rewrite last_drop by lia. done.
  - done.
Qed.

(** X18. A scheduled task sends its request exactly when its webhook
    exists and is active.  It always reports to the schedule's
    statistics, a success exactly when [sendDiscordWebhook] returned; the
    webhook's statistics hear of successes only: a failed scheduled send
    is never counted against the webhook. *)
Theorem handleScheduledTask_reports (ws : list pro_webhook)
    (sch : pro_schedule) (net : Dispatcher.network) (responseTime : Q) :
  let effects := handleScheduledTask ws sch net responseTime in
  let succeeds :=
    ∃ w response, find_pro_webhook (ps_webhookId sch) ws = Some w
                  ∧ pw_status w = "active"
                  ∧ Dispatcher.sendDiscordWebhook net = inr response in
  (∀ url data,
     Fetch url data ∈ effects
     ↔ ∃ w, find_pro_webhook (ps_webhookId sch) ws = Some w
            ∧ pw_status w = "active"
            ∧ url = pw_url w ∧ data = ps_messageData sch)
  ∧ (∃ o, UpdateScheduleStats (ps_id sch) o ∈ effects
          ∧ (Stats.success o = true ↔ succeeds))
  ∧ (∀ id o, UpdateWebhookStats id o ∈ effects →
             Stats.success o = true ∧ succeeds).
Proof.
  cbn zeta. unfold handleScheduledTask, scheduled_failure.
  destruct (find_pro_webhook (ps_webhookId sch) ws) as [w|].
  2:{ split; [|split].
      - intros url data. rewrite !elem_of_cons, elem_of_nil.
        split; [intros [|[|[]]]; done|intros (? & ? & _); done].
      - exists (Stats.Outcome false 0%Q). split; [by left|].
        split; [done|intros (? & ? & ? & _); done].
      - intros id o. rewrite !elem_of_cons, elem_of_nil.
        intros [|[|[]]]; done. }
  destruct (decide (pw_status w ≠ "active")) as [Hst|Hst].
  { split; [|split].
    - intros url data. rewrite !elem_of_cons, elem_of_nil.
      split; [intros [|[|[]]]; done|].
      intros (w' & [= <-] & Hact & _). done.
    - exists (Stats.Outcome false 0%Q). split; [by left|].
      split; [done|]. intros (w' & r & [= <-] & Hact & _). done.
    - intros id o. rewrite !elem_of_cons, elem_of_nil.
      intros [|[|[]]]; done. }
  apply dec_stable in Hst.
  destruct (Dispatcher.sendDiscordWebhook net) as [e|r].
  - split; [|split].
    + intros url data. rewrite !elem_of_cons, elem_of_nil. split.
      * intros [[= -> ->]|[|[|[]]]]; try done. by exists w.
      * intros (w' & [= <-] & _ & -> & ->). by left.
    + exists (Stats.Outcome false 0%Q). split; [by right; left|].
      split; [done|]. intros (w' & r & _ & _ & [=]).
    + intros id o. rewrite !elem_of_cons, elem_of_nil.
      intros [|[|[|[]]]]; done.
  - split; [|split].
    + intros url data. rewrite !elem_of_cons, elem_of_nil. split.
      * intros [[= -> ->]|[|[|[|[|[]]]]]]; try done. by exists w.
      * intros (w' & [= <-] & _ & -> & ->). by left.
    + exists (Stats.Outcome true responseTime). split; [by right; left|].
      split; [|done]. intros _. by exists w, r.
    + intros id o. rewrite !elem_of_cons, elem_of_nil.
      intros [|[|[[= -> ->]|[|[|[]]]]]]; try done.
      split; [done|]. by exists w, r.
Qed.

End ManagerOperations.

(* ===================================================================== *)
(** ** The debounced save *)
(* ===================================================================== *)

Section DebounceFacts.
Import Debounce.
Context {A : Type}.
Variable wait : Z.

Lemma debounce_run_app (es1 es2 : list (@debounce_event A)) tm :
  debounce_run wait (es1 ++ es2) tm
  = let '(calls1, tm1) := debounce_run wait es1 tm in
    let '(calls2, tm2) := debounce_run wait es2 tm1 in
    (calls1 ++ calls2, tm2).
Proof.
  revert tm. induction es1 as [|e es1 IH]; intros tm; cbn.
  - by destruct (debounce_run wait es2 tm).
  - destruct (debounce_step wait e tm) as [c tm']. rewrite IH.
    destruct (debounce_run wait es1 tm') as [c1 tm1].
    destruct (debounce_run wait es2 tm1) as [c2 tm2].
    by rewrite (assoc (++)).
Qed.

Lemma last_cons_default {B} (x : B) (l : list B) (d d' : B) :
  List.last (x :: l) d = List.last (x :: l) d'.
Proof.
  revert x. induction l as [|y l IH]; intros x; [done|].
  change (List.last (y :: l) d = List.last (y :: l) d'). apply IH.
Qed.

Lemma debounce_run_burst (t0 : Z) (a0 : A) (calls : list (Z * A)) :
  in_burst wait t0 calls →
  debounce_run wait ((λ c, Call c.1 c.2) <$> calls) (Some (t0 + wait, a0))
  = ([], Some ((List.last calls (t0, a0)).1 + wait,
               (List.last calls (t0, a0)).2)).
Proof.
  revert t0 a0. induction calls as [|[t a] calls IH]; intros t0 a0 Hb.
  - done.
  - destruct Hb as (Hle & Hlt & Hb). cbn [fmap list_fmap debounce_run].
    cbn [debounce_step fire fst snd].
    destruct (Z.leb_spec (t0 + wait) t); [lia|].
    rewrite (IH t a Hb).
    destruct calls as [|c calls]; [done|].
    cbn [app].
    change (List.last ((t, a) :: c :: calls) (t0, a0))
      with (List.last (c :: calls) (t0, a0)).
    by rewrite (last_cons_default c calls (t, a) (t0, a0)).
Qed.

(** X19. Debouncing: calls that each come before the wait of the one
    before has run out lead to no call of the function while they go on,
    and to exactly one, with the arguments of the last call, once the wait
    after the last call has run out. *)
Theorem debounce_calls_once (t0 : Z) (a0 : A) (calls : list (Z * A))
    (t : Z) :
  in_burst wait t0 calls →
  debounce_run wait
    (Call t0 a0 :: ((λ c, Call c.1 c.2) <$> calls) ++ [Elapse t]) None
  = if (List.last calls (t0, a0)).1 + wait <=? t
    then ([(List.last calls (t0, a0)).2], None)
    else ([], Some ((List.last calls (t0, a0)).1 + wait,
                    (List.last calls (t0, a0)).2)).
Proof.
  intros Hb. cbn [debounce_run debounce_step fire].
  rewrite debounce_run_app, (debounce_run_burst _ _ _ Hb).
  cbn [debounce_run debounce_step fire].
  by destruct (_ <=? t).
Qed.

End DebounceFacts.

Lemma debounce_calls_once_witness :
  Debounce.debounce_run 1000
    (Debounce.Call 0 "a"
       :: ((λ c, Debounce.Call c.1 c.2) <$> [(400, "b"); (900, "c")])
       ++ [Debounce.Elapse 1900]) None
  = (["c"], None).
Proof.
  apply (debounce_calls_once 1000 0 "a" [(400, "b"); (900, "c")] 1900).
  cbn. lia.
Defined.

(* ===================================================================== *)
(** ** The storage service *)
(* ===================================================================== *)

Section StorageFacts.
Import Storage.
Context {V : Type}.
Variable stringify : V → string.
Variable parse : string → option V.

Lemma prefix_key_inj (key key' : string) :
  prefix +:+ key = prefix +:+ key' → key = key'.
Proof. unfold prefix. cbn. by intros [=]. Qed.

Lemma prefix_key_prefix (key : string) :
  String.prefix prefix (prefix +:+ key) = true.
Proof. unfold prefix. cbn. by destruct key. Qed.

(** X20. What [set] stores, [get] reads back, for a value that
    [JSON.parse] recovers from its [JSON.stringify] text; the other keys
    read as before, a [set] that throws changes nothing, and after
    [remove] the key reads as [null]. *)
Theorem storage_round_trip (key : string) (value : V)
    (ls : gmap string string) :
  parse (stringify value) = Some value →
  stringify value ≠ EmptyString →
  get parse key (set stringify key value false ls).2 = Some value
  ∧ (∀ other, other ≠ key →
       get parse other (set stringify key value false ls).2
       = get parse other ls)
  ∧ set stringify key value true ls = (false, ls)
  ∧ get parse key (remove key ls).2 = None
  ∧ (∀ other, other ≠ key →
       get parse other (remove key ls).2 = get parse other ls).
Proof.
  intros Hparse Hne. unfold get, set, remove. cbn [snd].
  split; [|split; [|split; [|split]]].
  - rewrite lookup_insert_eq. by destruct (decide _).
  - intros other Hother. rewrite lookup_insert_ne; [done|].
    intros ?%prefix_key_inj. done.
  - done.
  - by rewrite lookup_delete_eq.
  - intros other Hother. rewrite lookup_delete_ne; [done|].
    intros ?%prefix_key_inj. done.
Qed.

(** X21. [clear] removes every item whose key starts with the prefix, so
    every key of the service reads as [null] afterwards, and it leaves
    every other item of [localStorage] alone: the analytics items
    [whm_analytics] and [whm_analytics_consent] among them. *)
Theorem storage_clear (ls : gmap string string) :
  (∀ key, get parse key (clear ls).2 = None)
  ∧ (∀ k, String.prefix prefix k = false → (clear ls).2 !! k = ls !! k)
  ∧ (clear ls).2 !! "whm_analytics" = ls !! "whm_analytics"
  ∧ (clear ls).2 !! "whm_analytics_consent" = ls !! "whm_analytics_consent".
Proof.
  assert (Hother : ∀ k, String.prefix prefix k = false →
                        (clear ls).2 !! k = ls !! k).
  { intros k Hk. unfold clear. cbn [snd].
    destruct (ls !! k) as [v|] eqn:Hlk.
    - apply map_lookup_filter_Some. done.
    - apply map_lookup_filter_None. left. done. }
  split; [|split; [done|split; by apply Hother]].
  intros key. unfold get, clear. cbn [snd].
  rewrite (proj2 (map_lookup_filter_None _ _ _)); [done|].
  right. intros v _. cbn. rewrite prefix_key_prefix. done.
Qed.

End StorageFacts.

Lemma storage_round_trip_witness :
  Storage.get (λ s, Some s) "theme"
    (Storage.set (λ v : string, v) "theme" "dark" false ∅).2 = Some "dark".
Proof.
  apply (storage_round_trip (λ v : string, v) (λ s, Some s)
           "theme" "dark" ∅); [reflexivity|discriminate].
Defined.

(* ===================================================================== *)
(** ** The analytics service as it runs *)
(* ===================================================================== *)

Section AnalyticsRun.
Import Analytics AnalyticsOps.
Variables userAgent language : string.

Lemma undelivered_flush st : undelivered (flush st) = undelivered st.
Proof.
  unfold undelivered, flush. destruct (queue st) as [|e q] eqn:Hq.
  - by rewrite Hq.
  - cbn [waiting queue]. rewrite fmap_app, concat_app. cbn.
    by rewrite !app_nil_r.
Qed.

Lemma enabled_flush st : enabled (flush st) = enabled st.
Proof. unfold flush. by destruct (queue st). Qed.

Lemma undelivered_track name properties now st :
  enabled st = true →
  undelivered (track userAgent language name properties now st)
  = undelivered st ++ [Event name properties now userAgent language].
Proof.
  intros Hen. unfold track. rewrite Hen.
  destruct (is_priority name); [rewrite undelivered_flush|];
    unfold undelivered; cbn [waiting queue]; by rewrite (assoc (++)).
Qed.

Lemma undelivered_resume_failed i st :
  undelivered (flush_resume i true st) ≡ₚ undelivered st.
Proof.
  unfold undelivered, flush_resume.
  destruct (waiting st !! i) as [f|] eqn:Hi; [|done].
  cbn [waiting queue].
  rewrite (delete_Permutation (waiting st) i f Hi) at 2.
  rewrite fmap_cons. cbn [concat].
  rewrite (assoc (++)).
  apply Permutation_app_tail, Permutation_app_comm.
Qed.

Lemma enabled_step a st :
  enabled (analytics_step userAgent language a st) = enabled st.
Proof.
  destruct a as [name properties now| |i throws]; cbn.
  - unfold track. destruct (enabled st) eqn:Hen; [|done].
    destruct (is_priority name); [by rewrite enabled_flush|done].
  - apply enabled_flush.
  - unfold flush_resume. destruct (waiting st !! i); [|done].
    by destruct throws.
Qed.

(** X22. While no flush gets its batch stored, no tracked event is lost
    and none is doubled: whatever the order of [track] calls, flushes and
    failing resumptions, the events that wait (in the queue or in the
    batch of a suspended flush) are those that waited at the start
    together with those tracked since. *)
Theorem undelivered_conserved (actions : list analytics_action)
    (st : service) :
  enabled st = true →
  never_delivers actions →
  undelivered (analytics_run userAgent language actions st)
  ≡ₚ undelivered st ++ tracked userAgent language actions.
Proof.
  unfold analytics_run, never_delivers.
  revert st. induction actions as [|a actions IH]; intros st Hen Hnd.
  - cbn. by rewrite app_nil_r.
  - apply Forall_cons in Hnd as [Ha Hnd]. cbn [foldl].
    rewrite IH; [|by rewrite enabled_step|done].
    destruct a as [name properties now| |i throws]; cbn.
    + rewrite undelivered_track by done. by rewrite <- (assoc (++)).
    + by rewrite undelivered_flush.
    + subst throws. by rewrite undelivered_resume_failed.
Qed.

(** X23. Consent: [init] enables the service exactly when the stored
    consent is [granted], so it follows what [setConsent] stored, and
    with no stored consent it disables the service; a disabled service
    ignores [track].  Before [init] a new service is enabled, and queues
    what is tracked. *)
Theorem consent_round_trip (granted : bool) (b : browser)
    (name properties : string) (now : Z) :
  enabled (svc (init (setConsent_stored granted b))) = granted
  ∧ (consentItem b = None →
       enabled (svc (init b)) = false
       ∧ track userAgent language name properties now (svc (init b))
         = svc (init b))
  ∧ undelivered (track userAgent language name properties now initial)
    = [Event name properties now userAgent language].
Proof.
  split; [by destruct granted|]. split.
  - intros Hnone. unfold init, getConsent, track. rewrite Hnone. done.
  - by rewrite undelivered_track.
Qed.

(** X24. A flush whose batch is stored leaves in the stored list exactly
    the last 1000 events of the list read when the flush began followed
    by the batch: the whole of it while that is at most 1000 events, and
    never more than 1000; only the oldest events are dropped.  The queue
    and the other suspended flushes are left alone. *)
Theorem flush_stores_last_1000 (i : nat) (f : flush_call) (st : service) :
  waiting st !! i = Some f →
  let all := f_existing f ++ f_events f in
  let st' := flush_resume i false st in
  localStore st' = drop (length all - 1000) all
  ∧ ((length all ≤ 1000)%nat → localStore st' = all)
  ∧ length (localStore st') = Nat.min (length all) 1000
  ∧ ((length (f_events f) ≤ 1000)%nat →
       f_events f `suffix_of` localStore st')
  ∧ queue st' = queue st
  ∧ waiting st' = delete i (waiting st)
  ∧ enabled st' = enabled st.
Proof.
  intros Hi all st'. unfold st', flush_resume. rewrite Hi.
  cbn [localStore queue waiting enabled]. unfold slice_last. fold all.
  split; [done|]. split; [|split; [|split; [|done]]].
  - intros Hlen. replace (length all - 1000)%nat with 0%nat by lia. done.
  - rewrite length_drop. lia.
  - intros Hlen. unfold all. rewrite drop_app, length_app.
    replace (length (f_existing f) + length (f_events f) - 1000
             - length (f_existing f))%nat with 0%nat by lia.
    cbn [drop]. by apply suffix_app_r.
Qed.

(** X25. Two flushes that are under way at the same time both start from
    the same stored list, so the one that finishes last overwrites what
    the other stored: the first batch is missing from the stored list. *)
Theorem overlapping_flush_overwrites (e : event) (q : list event)
    (name properties : string) (now : Z) (stored : list event) :
  is_priority name = true →
  let st := Service true (e :: q) [] stored in
  let st' :=
    flush_resume 0 false
      (flush_resume 0 false
         (track userAgent language name properties now (flush st))) in
  localStore st'
  = slice_last 1000
      (stored ++ [Event name properties now userAgent language])
  ∧ undelivered st' = [].
Proof.
  intros Hp st st'. unfold st', st, track, flush. cbn [queue enabled].
  rewrite Hp. cbn. done.
Qed.

End AnalyticsRun.

Lemma undelivered_conserved_witness :
  AnalyticsOps.undelivered
    (AnalyticsOps.analytics_run "ua" "en"
       [AnalyticsOps.Track "click" "{}" 1; AnalyticsOps.FlushTimer;
        AnalyticsOps.Track "error" "{}" 2; AnalyticsOps.Resume 0 true]
       Analytics.initial)
  ≡ₚ AnalyticsOps.undelivered Analytics.initial
     ++ AnalyticsOps.tracked "ua" "en"
          [AnalyticsOps.Track "click" "{}" 1; AnalyticsOps.FlushTimer;
           AnalyticsOps.Track "error" "{}" 2; AnalyticsOps.Resume 0 true].
Proof.
  apply (undelivered_conserved "ua" "en"); [reflexivity|].
  repeat constructor.
Defined.

Lemma consent_round_trip_witness :
  Analytics.enabled
    (AnalyticsOps.svc
       (AnalyticsOps.init (AnalyticsOps.Browser Analytics.initial None)))
  = false.
Proof.
  destruct (consent_round_trip "ua" "en" true
              (AnalyticsOps.Browser Analytics.initial None) "click" "{}" 1)
    as (_ & Hnone & _).
  exact (proj1 (Hnone eq_refl)).
Defined.

Lemma flush_stores_last_1000_witness :
  let e0 := Analytics.Event "pageview" "{}" 0 "ua" "en" in
  let e := Analytics.Event "click" "{}" 1 "ua" "en" in
  Analytics.localStore
    (Analytics.flush_resume 0 false
       (Analytics.Service true [] [Analytics.FlushCall [e] [e0]] [e0]))
  = [e0; e].
Proof.
  intros e0 e.
  exact (proj1 (flush_stores_last_1000 0
    (Analytics.FlushCall [e] [e0])
    (Analytics.Service true [] [Analytics.FlushCall [e] [e0]] [e0])
    eq_refl)).
Defined.

Lemma overlapping_flush_overwrites_witness :
  let e := Analytics.Event "click" "{}" 1 "ua" "en" in
  Analytics.localStore
    (Analytics.flush_resume 0 false
      (Analytics.flush_resume 0 false
         (Analytics.track "ua" "en" "error" "{}" 2
            (Analytics.flush (Analytics.Service true [e] [] [])))))
  = Analytics.slice_last 1000
      ([] ++ [Analytics.Event "error" "{}" 2 "ua" "en"]).
Proof.
  intros e.
  exact (proj1 (overlapping_flush_overwrites "ua" "en" e [] "error" "{}" 2
                  [] eq_refl)).
Defined.

(* ===================================================================== *)
(** ** When the dispatcher returns *)
(* ===================================================================== *)

Section DispatcherReturns.
Import Dispatcher.

(** X26. [sendDiscordWebhook] returns a value exactly when the response
    arrives in less than 10000 ms, has a status from 200 to 299 and a
    body that parses as JSON, and the value is the parsed body; in every
    other case it throws. *)
Theorem sendDiscordWebhook_returns_iff (net : network) (value : string) :
  sendDiscordWebhook net = inr value
  ↔ ∃ delay status statusText,
      net = Some (delay, Response status statusText (inr value))
      ∧ delay < 10000 ∧ 200 ≤ status ≤ 299.
Proof.
  unfold sendDiscordWebhook, fetch_with_signal, timeoutMs. split.
  - destruct net as [[delay r]|]; [|done].
    destruct (Z.ltb_spec delay 10000) as [Hd|Hd]; [|done].
    destruct r as [message|status statusText json]; [done|].
    cbn [try_block]. unfold response_is_ok.
    destruct (Z.leb_spec 200 status), (Z.leb_spec status 299);
      cbn [andb]; try done.
    destruct json as [error|v]; [done|]. intros [= ->].
    exists delay, status, statusText. split; [done|lia].
  - intros (delay & status & statusText & -> & Hd & Hs).
    destruct (Z.ltb_spec delay 10000) as [_|?]; [|lia].
    cbn [try_block]. unfold response_is_ok.
    destruct (Z.leb_spec 200 status), (Z.leb_spec status 299);
      cbn [andb]; try done; lia.
Qed.

End DispatcherReturns.

(* ===================================================================== *)
(** ** Deleting a webhook in the dashboard *)
(* ===================================================================== *)

Section WebhookDeletion.
Import Dash.

Lemma find_webhook_filtered (id : string) (ws : list webhook) :
  find_webhook id
    (List.filter (λ w, negb (bool_decide (w_id w = id))) ws) = None.
Proof.
  unfold find_webhook. induction ws as [|w ws IH]; [done|]. cbn.
  destruct (bool_decide (w_id w = id)) eqn:Hw; cbn; [done|].
  by rewrite Hw.
Qed.

Lemma find_webhook_filter_other (id id' : string) (ws : list webhook) :
  id' ≠ id →
  find_webhook id'
    (List.filter (λ w, negb (bool_decide (w_id w = id))) ws)
  = find_webhook id' ws.
Proof.
  intros Hne. unfold find_webhook. induction ws as [|w ws IH]; [done|].
  cbn. destruct (bool_decide (w_id w = id)) eqn:Hw; cbn.
  - apply bool_decide_eq_true in Hw.
    rewrite bool_decide_eq_false_2 by congruence. done.
  - by rewrite IH.
Qed.

(** X27. The dashboard's [deleteWebhook] removes the webhook and leaves
    its schedules where they are: they stay listed with their state, and
    from then on [executeSchedule] returns at once for each of them, so
    no round of the checker sends anything for them; the schedules of
    other webhooks find their webhook as before. *)
Theorem deleteWebhook_orphans_schedules (id : string) (now : Z)
    (st : state) :
  let st' := deleteWebhook id now st in
  schedules st' = schedules st
  ∧ heap st' = heap st
  ∧ find_webhook id (webhooks st') = None
  ∧ (∀ l s, heap st !! l = Some s → s_webhookId s = id →
            executeSchedule_start l st' = st')
  ∧ (∀ now' pr s, pr ∈ starts now' st' →
                  heap st !! p_schedule pr.1 = Some s →
                  s_webhookId s ≠ id)
  ∧ (∀ other, other ≠ id →
              find_webhook other (webhooks st')
              = find_webhook other (webhooks st)).
Proof.
  cbn zeta.
  assert (Hs : schedules (deleteWebhook id now st) = schedules st).
  { unfold deleteWebhook. by destruct (find_webhook id (webhooks st)). }
  assert (Hh : heap (deleteWebhook id now st) = heap st).
  { unfold deleteWebhook. by destruct (find_webhook id (webhooks st)). }
  assert (Hw : webhooks (deleteWebhook id now st)
               = List.filter (λ w, negb (bool_decide (w_id w = id)))
                   (webhooks st)).
  { unfold deleteWebhook. by destruct (find_webhook id (webhooks st)). }
  split; [done|]. split; [done|].
  split; [rewrite Hw; apply find_webhook_filtered|].
  split; [|split].
  - intros l s Hl Hid. unfold executeSchedule_start.
    rewrite Hh, Hl, Hw, Hid, find_webhook_filtered. done.
  - intros now' pr s Hpr Hl Hid. unfold starts, starts_of in Hpr.
    apply list_elem_of_omap in Hpr as (l & _ & Hpr).
    rewrite Hh in Hpr.
    destruct (heap st !! l) as [s'|] eqn:Hl'; [|done]. cbn in Hpr.
    destruct (due now' s'); [|done].
    rewrite Hw in Hpr.
    destruct (find_webhook (s_webhookId s') _) as [w|] eqn:Hf; [|done].
    cbn in Hpr. injection Hpr as <-. cbn in Hl.
    rewrite Hl' in Hl. injection Hl as ->.
    rewrite Hid, find_webhook_filtered in Hf. done.
  - intros other Hne. rewrite Hw. by apply find_webhook_filter_other.
Qed.

End WebhookDeletion.
